(** * Stellar structure integrator (02_stellar_structure/stellar_structure.ipynb)

    A shallow embedding of the notebook's code cells.  The notebook computes
    with IEEE doubles (Python floats and numpy float64 arrays); here every
    number is a real, so that the arithmetic is the exact one the formulas
    denote: no rounding, no overflow, no NaN.  numpy arrays are lists,
    [a[i] = v] is list insertion at an index, [a[0:i+1]] is [take].

    The notebook is a coursework template.  The cells that are complete
    ([M_deriv], [calc_epsilon], the branch of [T_deriv], and the set-up,
    loop header, surface test, report and truncation of [make_star]) are
    embedded from the code.  The bodies a student is asked to write are
    absent from the source; each of them is marked below. *)

From stdpp Require Import list.
From Stdlib Require Import Reals Lra Lia.

Local Open Scope R_scope.

(** ** Physical constants (CGS) *)

Definition G : R := 6.7e-8.
Definition c : R := 3.0e10.
Definition k : R := 1.4e-16.
Definition a : R := 7.6e-15.
Definition sigmaT : R := 6.7e-25.
Definition mH : R := 1.7e-24.

(** Constants for the p-p chain. *)
Definition Q : R := 26.2 * 1e6 * 1.6e-12.
Definition S0 : R := 4.0e-46 * 1e3 * 1.6e-12.
Definition EG : R := 500.0 * 1e3 * 1.6e-12.

(** Adiabatic index for a monatomic gas. *)
Definition gamma : R := 5.0 / 3.0.

(** ** Right-hand sides of the differential equations *)

(** [dMdr = 4.0 * np.pi * r**2 * rho] *)
Definition M_deriv (r rho : R) : R := 4.0 * PI * r ^ 2 * rho.

(** Modelled from the spec: the body of [P_deriv] is a stub in the source
    ([# ADD CODE HERE TO CALCULATE dPdr]); hydrostatic equilibrium,
    [dP/dr = - G M rho / r^2]. *)
Definition P_deriv (r M rho : R) : R := - (G * M * rho) / r ^ 2.

(** Modelled from the spec: the body of [T_deriv_rad] is a stub in the
    source; radiative transfer,
    [dT/dr = - (3 L kappa rho) / (4 pi r^2 * 4 a c T^3)]. *)
Definition T_deriv_rad (r L kappa rho T : R) : R :=
  - (3 * L * kappa * rho) / (4 * PI * r ^ 2 * (4 * a * c * T ^ 3)).

(** Modelled from the spec: the body of [L_deriv] is a stub in the source;
    energy conservation, [dL/dr = 4 pi r^2 rho epsilon]. *)
Definition L_deriv (r rho epsilon : R) : R := 4 * PI * r ^ 2 * rho * epsilon.

(** ** Equation of state, opacity, power density *)

(** Modelled from the spec: the body of [calc_rho] is a stub in the source;
    inverted ideal-gas law, [rho = (mbar / (k T)) * P]. *)
Definition calc_rho (P T mbar : R) : R := mbar / (k * T) * P.

(** Modelled from the spec: the body of [calc_kappa] is a stub in the
    source; Thomson scattering, [kappa = sigmaT / (2 mH) * (1 + X)]. *)
Definition calc_kappa (X : R) : R := sigmaT / (2 * mH) * (1 + X).

(** [calc_epsilon] is given in full by the source.  A float power with a
    fractional exponent is [Rpower] (its bases are positive wherever the
    claims look at it); [X**2] and [mH**2] are integer powers. *)
Definition calc_epsilon (rho T X : R) : R :=
  let mu := mH / 2 in
  (Rpower 2.0 (5 / 3) * sqrt 2 / sqrt 3)
  * ((rho * X ^ 2) / (mH ^ 2 * sqrt mu))
  * (Q * S0)
  * (Rpower EG (1 / 6) / Rpower (k * T) (2 / 3))
  * exp (- 3.0 * Rpower (EG / (4.0 * k * T)) (1 / 3)).

(** ** Temperature gradient: radiative transfer or convection *)

(** Modelled from the spec: the two lines of [T_deriv] that compute
    [dTdr_rad] and [dTdr_conv] are left unfinished in the source
    ([# FINISH THIS LINE...]); [dTdr_rad] is [T_deriv_rad] and
    [dTdr_conv = ((gamma - 1) / gamma) * (T / P) * dPdr].  The comparison of
    the absolute values and the two branches are the source's. *)
Definition T_deriv (r L kappa rho T P dPdr : R) : R :=
  let dTdr_rad := T_deriv_rad r L kappa rho T in
  let dTdr_conv := (gamma - 1) / gamma * (T / P) * dPdr in
  if Rgt_dec (Rabs dTdr_rad) (Rabs dTdr_conv) then dTdr_conv else dTdr_rad.

(** ** The integration driver *)

(** [np.linspace(start, stop, num)]: [num] evenly spaced samples over
    [[start, stop]], computed as [arange(num) * step + start] with
    [step = (stop - start) / (num - 1)]. *)
Definition linspace (start stop : R) (num : nat) : list R :=
  (fun i : nat => INR i * ((stop - start) / INR (num - 1)) + start) <$> seq 0 num.

(** [a[i]] on an array.  Every index the driver reads is within bounds: the
    arrays keep the [nstep] entries they are created with (see
    [after_sized]) and the loop variable stays below [nstep]. *)
Definition get (l : list R) (i : nat) : R := default 0 (l !! i).

(** The seven working arrays that the loop writes. *)
Record arrays : Type := Arrays {
  arr_M : list R;
  arr_P : list R;
  arr_T : list R;
  arr_L : list R;
  arr_rho : list R;
  arr_kappa : list R;
  arr_epsilon : list R
}.

(** The seven quantities at one radial index. *)
Record shell : Type := Shell {
  sh_M : R;
  sh_P : R;
  sh_T : R;
  sh_L : R;
  sh_rho : R;
  sh_kappa : R;
  sh_epsilon : R
}.

Definition read (w : arrays) (j : nat) : shell :=
  {| sh_M := get (arr_M w) j;
     sh_P := get (arr_P w) j;
     sh_T := get (arr_T w) j;
     sh_L := get (arr_L w) j;
     sh_rho := get (arr_rho w) j;
     sh_kappa := get (arr_kappa w) j;
     sh_epsilon := get (arr_epsilon w) j |}.

Definition write (i : nat) (s : shell) (w : arrays) : arrays :=
  {| arr_M := <[i := sh_M s]> (arr_M w);
     arr_P := <[i := sh_P s]> (arr_P w);
     arr_T := <[i := sh_T s]> (arr_T w);
     arr_L := <[i := sh_L s]> (arr_L w);
     arr_rho := <[i := sh_rho s]> (arr_rho w);
     arr_kappa := <[i := sh_kappa s]> (arr_kappa w);
     arr_epsilon := <[i := sh_epsilon s]> (arr_epsilon w) |}.

(** Modelled from the spec: the body of the [for] loop above the surface
    test is absent from the source ([**ADD CODE IN THIS FOR LOOP**]); the
    source's comments and the spec (4.7, steps 3a to 3c) fix it: update
    [M], [P], [T] and [L] from step [i-1] to step [i] by adding
    [deriv * dr] to the value of the previous step, every derivative taken
    on the values of step [i-1]; then update [rho], [kappa] and [epsilon]
    for step [i] from the new [P] and [T].  [advance] is the arithmetic of
    one step, [step] reads index [i-1] and writes index [i]. *)
Definition advance (mbar X dr r_prev : R) (s : shell) : shell :=
  let dMdr := M_deriv r_prev (sh_rho s) in
  let dPdr := P_deriv r_prev (sh_M s) (sh_rho s) in
  let dTdr :=
    T_deriv r_prev (sh_L s) (sh_kappa s) (sh_rho s) (sh_T s) (sh_P s) dPdr in
  let dLdr := L_deriv r_prev (sh_rho s) (sh_epsilon s) in
  let M_i := sh_M s + dMdr * dr in
  let P_i := sh_P s + dPdr * dr in
  let T_i := sh_T s + dTdr * dr in
  let L_i := sh_L s + dLdr * dr in
  let rho_i := calc_rho P_i T_i mbar in
  let kappa_i := calc_kappa X in
  let epsilon_i := calc_epsilon rho_i T_i X in
  {| sh_M := M_i; sh_P := P_i; sh_T := T_i; sh_L := L_i;
     sh_rho := rho_i; sh_kappa := kappa_i; sh_epsilon := epsilon_i |}.

(** Modelled from the spec: one iteration of the loop body (absent from the
    source, see [advance]): the values of index [i-1] are read, advanced,
    and written at index [i]; [r[i-1]] is the radius they are taken at. *)
Definition step (mbar X dr : R) (r : list R) (i : nat) (w : arrays) : arrays :=
  write i (advance mbar X dr (get r (i - 1)) (read w (i - 1))) w.

(** [x <= 0.0] *)
Definition leb0 (x : R) : bool := if Rle_dec x 0.0 then true else false.

(** [(P[i] <= 0.0) or (T[i] <= 0.0) or (rho[i] <= 0.0)] *)
Definition surface (w : arrays) (i : nat) : bool :=
  leb0 (get (arr_P w) i) || leb0 (get (arr_T w) i) || leb0 (get (arr_rho w) i).

(** [for i in idxs: body; if surface: break].  The result carries the loop
    variable as Python leaves it: the last value it was bound to, or nothing
    when the range was empty. *)
Fixpoint march (body : nat -> arrays -> arrays) (idxs : list nat)
    (i : option nat) (w : arrays) : option nat * arrays :=
  match idxs with
  | [] => (i, w)
  | j :: rest =>
      let w' := body j w in
      if surface w' j then (Some j, w') else march body rest (Some j) w'
  end.

(** What [make_star] hands back: the three values it prints and the eight
    arrays it returns. *)
Record star : Type := Star {
  r_star : R;
  M_star : R;
  L_star : R;
  out_r : list R;
  out_M : list R;
  out_P : list R;
  out_T : list R;
  out_L : list R;
  out_rho : list R;
  out_kappa : list R;
  out_epsilon : list R
}.

(** The ways a call can end: a return, or one of the exceptions that the
    statements of the source can raise. *)
Inductive outcome : Type :=
  | Returned (s : star)
  | ZeroDivisionError
  | IndexError
  | UnboundLocalError.

(** [mbar = mH * 2.0 / (1.0 + 3.0 * X + 0.5 * Y)] *)
Definition mean_mass (X Y : R) : R := mH * 2.0 / (1.0 + 3.0 * X + 0.5 * Y).

(** The body of [make_star], with its two local constants [rmax] and
    [nstep] as arguments (the spec's [build_star]).  The division that
    computes [mbar] is on Python floats and raises on a zero denominator;
    [r[1]] and the writes at index 0 need two and one grid points. *)
Definition build_star (rmax : R) (nstep : nat) (T0 P0 X Y : R) : outcome :=
  if Req_dec_T (1.0 + 3.0 * X + 0.5 * Y) 0 then ZeroDivisionError else
  let mbar := mean_mass X Y in
  let r := linspace 0 rmax nstep in
  if decide (nstep < 2)%nat then IndexError else
  let dr := get r 1 - get r 0 in
  let r := (fun x => x + dr / 2.0) <$> r in
  let zeros := replicate (length r) 0 in
  let M := <[0%nat := 0.0]> zeros in
  let P := <[0%nat := P0]> zeros in
  let T := <[0%nat := T0]> zeros in
  let L := <[0%nat := 0.0]> zeros in
  let rho := <[0%nat := calc_rho (get P 0) (get T 0) mbar]> zeros in
  let kappa := <[0%nat := calc_kappa X]> zeros in
  let epsilon := <[0%nat := calc_epsilon (get rho 0) (get T 0) X]> zeros in
  let w0 := Arrays M P T L rho kappa epsilon in
  let '(oi, w) := march (step mbar X dr r) (seq 1 (nstep - 1)) None w0 in
  match oi with
  | None => UnboundLocalError
  | Some i =>
      Returned
        {| r_star := get r i;
           M_star := get (arr_M w) i;
           L_star := get (arr_L w) i;
           out_r := take (i + 1) r;
           out_M := take (i + 1) (arr_M w);
           out_P := take (i + 1) (arr_P w);
           out_T := take (i + 1) (arr_T w);
           out_L := take (i + 1) (arr_L w);
           out_rho := take (i + 1) (arr_rho w);
           out_kappa := take (i + 1) (arr_kappa w);
           out_epsilon := take (i + 1) (arr_epsilon w) |}
  end.

Definition rmax : R := 1.0e12.
Definition nstep : nat := Z.to_nat 100000.

(** The hundred thousand steps are never counted out in unary. *)
Arguments nstep : simpl never.

Definition make_star (T0 P0 X Y : R) : outcome := build_star rmax nstep T0 P0 X Y.

(** ** The sequence of shells that the loop computes

    The working arrays are written one index per iteration, from the index
    before it; what the loop computes is therefore a sequence of shells,
    each obtained from the previous one by [advance].  The definitions
    below name that sequence, so that the statements about the driver can
    speak of the values [P_i], [T_i], [rho_i] of step [i], whether or not
    the loop gets that far. *)

(** [dr = r[1] - r[0]] *)
Definition delta_r (rmax : R) (nstep : nat) : R :=
  get (linspace 0 rmax nstep) 1 - get (linspace 0 rmax nstep) 0.

(** [r = r + dr / 2.0] *)
Definition grid (rmax : R) (nstep : nat) : list R :=
  (fun x => x + delta_r rmax nstep / 2.0) <$> linspace 0 rmax nstep.

(** The entries written at index 0 before the loop. *)
Definition center (T0 P0 X Y : R) : shell :=
  let mbar := mean_mass X Y in
  {| sh_M := 0.0; sh_P := P0; sh_T := T0; sh_L := 0.0;
     sh_rho := calc_rho P0 T0 mbar;
     sh_kappa := calc_kappa X;
     sh_epsilon := calc_epsilon (calc_rho P0 T0 mbar) T0 X |}.

(** The shell of index [i]: [i] applications of the loop body to the shell
    of index 0, each on the radius of the index before. *)
Fixpoint shells (mbar X dr : R) (r : list R) (s0 : shell) (i : nat) : shell :=
  match i with
  | O => s0
  | S j => advance mbar X dr (get r j) (shells mbar X dr r s0 j)
  end.

Definition trajectory (rmax : R) (nstep : nat) (T0 P0 X Y : R) (i : nat) : shell :=
  shells (mean_mass X Y) X (delta_r rmax nstep) (grid rmax nstep)
    (center T0 P0 X Y) i.

(** The working arrays after the iterations [1..m] of the loop body. *)
Fixpoint run_to (body : nat -> arrays -> arrays) (m : nat) (w : arrays) : arrays :=
  match m with
  | O => w
  | S j => body (S j) (run_to body j w)
  end.

(** The profile cut after index [i]: the report and the slices [0:i+1]. *)
Definition profile (rmax : R) (nstep : nat) (T0 P0 X Y : R) (i : nat) : star :=
  let t := trajectory rmax nstep T0 P0 X Y in
  {| r_star := get (grid rmax nstep) i;
     M_star := sh_M (t i);
     L_star := sh_L (t i);
     out_r := take (i + 1) (grid rmax nstep);
     out_M := (fun j => sh_M (t j)) <$> seq 0 (i + 1);
     out_P := (fun j => sh_P (t j)) <$> seq 0 (i + 1);
     out_T := (fun j => sh_T (t j)) <$> seq 0 (i + 1);
     out_L := (fun j => sh_L (t j)) <$> seq 0 (i + 1);
     out_rho := (fun j => sh_rho (t j)) <$> seq 0 (i + 1);
     out_kappa := (fun j => sh_kappa (t j)) <$> seq 0 (i + 1);
     out_epsilon := (fun j => sh_epsilon (t j)) <$> seq 0 (i + 1) |}.

(** The surface test on a shell. *)
Definition at_surface (s : shell) : Prop :=
  sh_P s <= 0 \/ sh_T s <= 0 \/ sh_rho s <= 0.

(** The shells of [make_star]. *)
Definition shell_of (T0 P0 X Y : R) (i : nat) : shell :=
  trajectory rmax nstep T0 P0 X Y i.

(** The loop ran through its whole range: no step triggered the surface
    test. *)
Definition grid_exhausted (T0 P0 X Y : R) : Prop :=
  forall j : nat, (1 <= j < nstep)%nat -> ~ at_surface (shell_of T0 P0 X Y j).

(** The entry of index [i] of a returned profile. *)
Definition entry (o : star) (i : nat) : option shell :=
  M_i ← out_M o !! i; P_i ← out_P o !! i; T_i ← out_T o !! i;
  L_i ← out_L o !! i; rho_i ← out_rho o !! i; kappa_i ← out_kappa o !! i;
  epsilon_i ← out_epsilon o !! i;
  Some (Shell M_i P_i T_i L_i rho_i kappa_i epsilon_i).

(** The report presents the last retained entry as the radius, the mass and
    the luminosity of the star. *)
Definition reported_as_star (o : star) : Prop :=
  let i := (length (out_r o) - 1)%nat in
  r_star o = get (out_r o) i /\ M_star o = get (out_M o) i /\
  L_star o = get (out_L o) i.

(** The constants of the closed form of [calc_epsilon], as the
    specification writes them: [C] and [beta] from [Q], [S0], [EG], [k],
    [mH] and [mu = mH / 2]. *)
Definition epsilon_C : R :=
  (Rpower 2 (5 / 3) * sqrt 2 / sqrt 3) * Q * S0 * Rpower EG (1 / 6)
  / (mH ^ 2 * sqrt (mH / 2) * Rpower k (2 / 3)).

Definition epsilon_beta : R := 3 * Rpower (EG / (4 * k)) (1 / 3).

(** ** Notions used in the proofs *)

(** All seven working arrays have [n] entries. *)
Definition sized (n : nat) (w : arrays) : Prop :=
  length (arr_M w) = n /\ length (arr_P w) = n /\ length (arr_T w) = n /\
  length (arr_L w) = n /\ length (arr_rho w) = n /\ length (arr_kappa w) = n /\
  length (arr_epsilon w) = n.

(** The bounds that the shell of index [j] obeys in a star too dilute for
    the grid: the enclosed mass grows at most like [K j r_j^2], the pressure
    has fallen by at most [j dP], the temperature has moved by at most
    [j dT], and the density is the one of the equation of state. *)
Definition within (mbar K dP dT P0 T0 : R) (rad : nat -> R) (sh : nat -> shell)
    (j : nat) : Prop :=
  0 <= sh_M (sh j) <= K * INR j * rad j ^ 2 /\
  P0 - INR j * dP <= sh_P (sh j) <= P0 /\
  Rabs (sh_T (sh j) - T0) <= INR j * dT /\
  sh_rho (sh j) = calc_rho (sh_P (sh j)) (sh_T (sh j)) mbar.

(** Products of non-negative, and of positive, factors. *)
Ltac nonneg :=
  lazymatch goal with
  | |- 0 <= _ * _ => apply Rmult_le_pos; nonneg
  | |- _ => lra
  end.

Ltac pos :=
  lazymatch goal with
  | |- 0 < _ * _ => apply Rmult_lt_0_compat; pos
  | |- _ => lra
  end.

(** * Properties *)

Lemma k_pos : 0 < k. Proof. unfold k; lra. Qed.
Lemma mH_pos : 0 < mH. Proof. unfold mH; lra. Qed.
Lemma G_pos : 0 < G. Proof. unfold G; lra. Qed.
Lemma EG_pos : 0 < EG. Proof. unfold EG; lra. Qed.
Lemma Q_pos : 0 < Q. Proof. unfold Q; lra. Qed.
Lemma S0_pos : 0 < S0. Proof. unfold S0; lra. Qed.

Lemma Rpower_pos x y : 0 < Rpower x y.
Proof. unfold Rpower. apply exp_pos. Qed.

(** ** Arrays *)

Lemma get_lookup (l : list R) (i : nat) (x : R) : l !! i = Some x -> get l i = x.
Proof. unfold get. by intros ->. Qed.

Lemma lookup_get (l : list R) (i : nat) : (i < length l)%nat -> l !! i = Some (get l i).
Proof.
  intros Hi. destruct (lookup_lt_is_Some_2 l i Hi) as [x Hx].
  by rewrite (get_lookup _ _ _ Hx).
Qed.

Lemma get_insert_eq (l : list R) (i : nat) (v : R) :
  (i < length l)%nat -> get (<[i := v]> l) i = v.
Proof. intros Hi. apply get_lookup. by apply list_lookup_insert_eq. Qed.

Lemma get_insert_ne (l : list R) (i j : nat) (v : R) :
  i <> j -> get (<[i := v]> l) j = get l j.
Proof. intros Hij. unfold get. by rewrite list_lookup_insert_ne. Qed.

Lemma get_take (l : list R) (n j : nat) : (j < n)%nat -> get (take n l) j = get l j.
Proof. intros Hj. unfold get. by rewrite lookup_take_lt. Qed.

Lemma get_fmap (f : R -> R) (l : list R) (i : nat) :
  (i < length l)%nat -> get (f <$> l) i = f (get l i).
Proof.
  intros Hi. apply get_lookup. rewrite list_lookup_fmap.
  by rewrite (lookup_get l i Hi).
Qed.

Lemma write_sized (n i : nat) (s : shell) (w : arrays) :
  sized n w -> sized n (write i s w).
Proof.
  unfold sized, write; simpl. rewrite !length_insert. tauto.
Qed.

Lemma read_write_eq (n i : nat) (s : shell) (w : arrays) :
  sized n w -> (i < n)%nat -> read (write i s w) i = s.
Proof.
  intros (HM & HP & HT & HL & Hr & Hk & He) Hi. destruct s.
  unfold read, write; simpl.
  rewrite !get_insert_eq; [done | lia ..].
Qed.

Lemma read_write_ne (i j : nat) (s : shell) (w : arrays) :
  i <> j -> read (write i s w) j = read w j.
Proof.
  intros Hij. unfold read, write; simpl. by rewrite !get_insert_ne.
Qed.

(** ** The loop body, iterated *)

Section Loop.
Variables (mbar X dr : R) (r : list R).
Variable n : nat.
Variable w0 : arrays.
Hypothesis w0_sized : sized n w0.

Let body := step mbar X dr r.
Let after := run_to body.
Let sh := shells mbar X dr r (read w0 0).

Lemma after_sized (m : nat) : sized n (after m w0).
Proof.
  induction m as [|m IH]; simpl; [done|]. by apply write_sized.
Qed.

(** After the iterations [1..m], the entries up to [m] are the shells of
    the sequence and the entries beyond [m] are untouched. *)
Lemma after_read (m j : nat) :
  (m < n)%nat ->
  read (after m w0) j = if decide (j <= m)%nat then sh j else read w0 j.
Proof.
  revert j. induction m as [|m IH]; intros j Hm.
  - simpl. case_decide as Hj; [|done]. by replace j with 0%nat by lia.
  - change (after (S m) w0) with (step mbar X dr r (S m) (after m w0)).
    unfold step. replace (S m - 1)%nat with m by lia.
    destruct (decide (j = S m)) as [->|Hne].
    + rewrite (read_write_eq n); [| apply after_sized | done].
      rewrite decide_True by lia.
      change (sh (S m)) with (advance mbar X dr (get r m) (sh m)).
      rewrite IH by lia. by rewrite decide_True by lia.
    + rewrite read_write_ne by done. rewrite IH by lia.
      repeat case_decide; (done || lia).
Qed.

Lemma after_read_le (m j : nat) : (j <= m < n)%nat -> read (after m w0) j = sh j.
Proof. intros [Hj Hm]. rewrite after_read by done. by rewrite decide_True. Qed.

Lemma leb0_true (x : R) : leb0 x = true <-> x <= 0.
Proof. unfold leb0. destruct (Rle_dec x 0.0); split; (done || lra). Qed.

Lemma surface_read (w : arrays) (i : nat) :
  surface w i = true <-> at_surface (read w i).
Proof.
  unfold surface, at_surface, read; simpl.
  rewrite !orb_true_iff, !leb0_true. tauto.
Qed.

Lemma surface_after (m : nat) :
  (m < n)%nat -> surface (after m w0) m = true <-> at_surface (sh m).
Proof. intros Hm. rewrite surface_read. by rewrite after_read_le by lia. Qed.

(** The loop over [range(s, s + len)], entered after the iterations
    [1..s-1]: it ends after the iterations [1..m], where [m] is the first
    index of the range at which the surface test holds, or the last index
    of the range; the loop variable is left at [m]. *)
Lemma march_range (len s : nat) (oi : option nat) :
  (1 <= s)%nat -> (s + len <= n)%nat ->
  exists (oi' : option nat) (m : nat),
    march body (seq s len) oi (after (s - 1) w0) = (oi', after m w0) /\
    ((len = 0%nat /\ oi' = oi /\ m = (s - 1)%nat) \/
     (oi' = Some m /\ (s <= m < s + len)%nat /\
      (forall j : nat, (s <= j < m)%nat -> ~ at_surface (sh j)) /\
      (at_surface (sh m) \/ m = (s + len - 1)%nat))).
Proof.
  revert s oi. induction len as [|len IH]; intros s oi Hs Hn.
  - exists oi, (s - 1)%nat. simpl. split; [done|]. by left.
  - simpl.
    assert (Hb : body s (after (s - 1) w0) = after s w0).
    { destruct s as [|s]; [lia|]. simpl. by replace (s - 0)%nat with s by lia. }
    rewrite Hb.
    destruct (surface (after s w0) s) eqn:Hsurf.
    + exists (Some s), s. split; [done|]. right.
      split; [done|]. split; [lia|]. split; [intros j Hj; lia|].
      left. apply surface_after; [lia | done].
    + destruct (IH (S s) (Some s)) as (oi' & m & Hm & Hcase); [lia | lia |].
      replace (S s - 1)%nat with s in Hm by lia.
      exists oi', m. split; [done|]. right.
      assert (Hnot : ~ at_surface (sh s)).
      { intros Hat. apply surface_after in Hat; [|lia]. congruence. }
      destruct Hcase as [(-> & -> & ->) | (-> & Hrange & Hbefore & Hlast)].
      * replace (S s - 1)%nat with s by lia.
        split; [done|]. split; [lia|]. split; [intros j Hj; lia|].
        right. lia.
      * split; [done|]. split; [lia|]. split.
        -- intros j Hj. destruct (decide (j = s)) as [->|Hne]; [done|].
           apply Hbefore. lia.
        -- destruct Hlast as [Hat | ->]; [by left | right; lia].
Qed.
End Loop.

(** ** The radial grid *)

Lemma length_linspace (start stop : R) (num : nat) : length (linspace start stop num) = num.
Proof. unfold linspace. by rewrite length_fmap, length_seq. Qed.

Lemma get_linspace (start stop : R) (num i : nat) :
  (i < num)%nat ->
  get (linspace start stop num) i = INR i * ((stop - start) / INR (num - 1)) + start.
Proof.
  intros Hi. apply get_lookup. unfold linspace.
  rewrite list_lookup_fmap, lookup_seq_lt by done. done.
Qed.

Lemma delta_r_eq (rmax : R) (n : nat) : (2 <= n)%nat -> delta_r rmax n = rmax / INR (n - 1).
Proof.
  intros Hn. unfold delta_r. rewrite !get_linspace by lia.
  change (INR 1) with 1. change (INR 0) with 0. lra.
Qed.

Lemma length_grid (rmax : R) (n : nat) : length (grid rmax n) = n.
Proof. unfold grid. by rewrite length_fmap, length_linspace. Qed.

Lemma get_grid (rmax : R) (n i : nat) :
  (2 <= n)%nat -> (i < n)%nat ->
  get (grid rmax n) i = INR i * delta_r rmax n + delta_r rmax n / 2.
Proof.
  intros Hn Hi. unfold grid. rewrite get_fmap by (by rewrite length_linspace).
  rewrite get_linspace by done. rewrite delta_r_eq by done.
  replace 2.0 with 2 by lra. unfold Rdiv. ring.
Qed.

(** ** The driver computes the sequence of shells *)

Lemma take_fmap_seq (l : list R) (f : nat -> R) (m : nat) :
  (m <= length l)%nat -> (forall j : nat, (j < m)%nat -> get l j = f j) ->
  take m l = f <$> seq 0 m.
Proof.
  intros Hm Hf. apply list_eq. intros j.
  destruct (decide (j < m)%nat) as [Hj|Hj].
  - rewrite lookup_take_lt, list_lookup_fmap, lookup_seq_lt by done. simpl.
    rewrite lookup_get by lia. by rewrite Hf.
  - rewrite lookup_take_ge, list_lookup_fmap, lookup_seq_ge by lia. done.
Qed.

Lemma build_star_profile (rmax : R) (n : nat) (T0 P0 X Y : R) :
  1 + 3 * X + 0.5 * Y <> 0 -> (2 <= n)%nat ->
  exists i : nat,
    (1 <= i < n)%nat /\
    build_star rmax n T0 P0 X Y = Returned (profile rmax n T0 P0 X Y i) /\
    (forall j : nat, (1 <= j < i)%nat -> ~ at_surface (trajectory rmax n T0 P0 X Y j)) /\
    (at_surface (trajectory rmax n T0 P0 X Y i) \/ i = (n - 1)%nat).
Proof.
  intros Hden Hn. unfold build_star.
  destruct (Req_dec_T _ _) as [Hz|_]; [exfalso; apply Hden; lra|].
  rewrite decide_False by lia.
  fold (delta_r rmax n). fold (grid rmax n). rewrite length_grid.
  set (zeros := replicate n 0).
  assert (Hzl : length zeros = n) by apply length_replicate.
  set (w0 := Arrays _ _ _ _ _ _ _).
  assert (Hs : sized n w0).
  { unfold sized, w0; simpl. rewrite !length_insert. tauto. }
  assert (Hc : read w0 0 = center T0 P0 X Y).
  { unfold read, w0, center; simpl. rewrite !get_insert_eq by lia. done. }
  destruct (march_range (mean_mass X Y) X (delta_r rmax n) (grid rmax n) n w0 Hs
              (n - 1) 1 None) as (oi & m & Hmarch & Hcase); [lia | lia |].
  simpl in Hmarch. rewrite Hmarch.
  destruct Hcase as [(Hlen & _) | (-> & Hm & Hbefore & Hlast)]; [lia|].
  rewrite Hc in Hbefore, Hlast.
  exists m. split; [lia|]. split.
  2:{ split; [done|]. destruct Hlast as [?| ->]; [by left | right; lia]. }
  pose proof (after_sized (mean_mass X Y) X (delta_r rmax n) (grid rmax n) n w0 Hs m)
    as (HM & HP & HT & HL & Hr & Hk & He).
  assert (Hrd : forall j : nat, (j < m + 1)%nat ->
    read (run_to (step (mean_mass X Y) X (delta_r rmax n) (grid rmax n)) m w0) j
    = trajectory rmax n T0 P0 X Y j).
  { intros j Hj. rewrite (after_read_le _ _ _ _ n) by (done || lia).
    by rewrite Hc. }
  f_equal. unfold profile.
  rewrite <- !(Hrd m) by lia.
  f_equal; try done;
    (apply take_fmap_seq; [lia | intros j Hj; by rewrite <- (Hrd j Hj)]).
Qed.

Lemma div_nonneg (x y : R) : 0 <= x -> 0 < y -> 0 <= x / y.
Proof.
  intros Hx Hy. unfold Rdiv. apply Rmult_le_pos; [done|].
  left. by apply Rinv_0_lt_compat.
Qed.

Lemma gamma_ratio : (gamma - 1) / gamma = 2 / 5.
Proof. unfold gamma. lra. Qed.

(** The selector never returns a gradient steeper than the convective
    threshold. *)
Lemma T_deriv_le_conv (r L kappa rho T P dPdr : R) :
  Rabs (T_deriv r L kappa rho T P dPdr) <= Rabs ((gamma - 1) / gamma * (T / P) * dPdr).
Proof.
  unfold T_deriv. destruct (Rgt_dec _ _) as [Hgt|Hle]; lra.
Qed.

Lemma calc_rho_pos (P T mbar : R) : 0 < P -> 0 < T -> 0 < mbar -> 0 < calc_rho P T mbar.
Proof.
  intros HP HT Hm. pose proof k_pos. unfold calc_rho.
  apply Rmult_lt_0_compat; [|done].
  apply Rdiv_lt_0_compat; [done|]. by apply Rmult_lt_0_compat.
Qed.

(** [calc_rho] grows with the pressure and falls with the temperature. *)
Lemma calc_rho_le (P T P' T' mbar : R) :
  0 < mbar -> 0 <= P <= P' -> 0 < T' <= T -> calc_rho P T mbar <= calc_rho P' T' mbar.
Proof.
  intros Hm [HP0 HP] [HT0 HT]. pose proof k_pos as Hk. unfold calc_rho.
  assert (HkT' : 0 < k * T') by nra.
  assert (HkT : 0 < k * T) by nra.
  assert (Hi : / (k * T) <= / (k * T')).
  { apply Rinv_le_contravar; nra. }
  assert (Hi0 : 0 < / (k * T)) by (by apply Rinv_0_lt_compat).
  unfold Rdiv.
  apply Rmult_le_compat; [nra | done | | done].
  apply Rmult_le_compat_l; lra.
Qed.

Section OneStep.
Variables (mbar X dr r : R) (s : shell).
Variables (Pmin Tmin Tmax rho_max Mq : R).
Hypothesis dr_pos : 0 < dr.
Hypothesis r_pos : 0 < r.
Hypothesis HPmin : 0 < Pmin <= sh_P s.
Hypothesis HTmin : 0 < Tmin <= sh_T s.
Hypothesis HTmax : sh_T s <= Tmax.
Hypothesis Hrho : 0 <= sh_rho s <= rho_max.
Hypothesis HM : 0 <= sh_M s <= Mq * r ^ 2.

Let s' := advance mbar X dr r s.

Lemma Mq_nonneg : 0 <= Mq.
Proof. assert (0 < r ^ 2) by nra. nra. Qed.

Lemma advance_M :
  sh_M s <= sh_M s' <= (Mq + 4 * PI * rho_max * dr) * r ^ 2.
Proof.
  unfold s', advance, M_deriv; simpl. replace 4.0 with 4 by lra.
  pose proof PI_RGT_0 as Hpi. assert (Hr2 : 0 < r ^ 2) by nra.
  assert (H1 : 0 <= 4 * PI * r ^ 2 * sh_rho s * dr).
  { nonneg. }
  assert (H2 : 4 * PI * r ^ 2 * sh_rho s * dr <= 4 * PI * r ^ 2 * rho_max * dr).
  { apply Rmult_le_compat_r; [lra|]. apply Rmult_le_compat_l; [nonneg|lra]. }
  split; lra.
Qed.

(** The pressure gradient is inward and bounded. *)
Lemma P_deriv_bounds :
  - (G * Mq * rho_max) <= P_deriv r (sh_M s) (sh_rho s) <= 0.
Proof.
  pose proof G_pos as HG. pose proof Mq_nonneg as HMq.
  assert (Hr2 : 0 < r ^ 2) by nra.
  unfold P_deriv.
  assert (Hq : 0 <= sh_M s / r ^ 2 <= Mq).
  { split.
    - apply div_nonneg; lra.
    - apply (Rmult_le_reg_r (r ^ 2)); [done|]. field_simplify; lra. }
  replace (- (G * sh_M s * sh_rho s) / r ^ 2)
    with (- (G * (sh_M s / r ^ 2) * sh_rho s)) by (field; lra).
  assert (H1 : 0 <= G * (sh_M s / r ^ 2) * sh_rho s).
  { nonneg. }
  assert (H2 : G * (sh_M s / r ^ 2) * sh_rho s <= G * Mq * rho_max).
  { apply Rmult_le_compat; [| lra | | lra].
    - apply Rmult_le_pos; lra.
    - apply Rmult_le_compat_l; lra. }
  split; lra.
Qed.

Lemma advance_P :
  sh_P s - G * Mq * rho_max * dr <= sh_P s' <= sh_P s.
Proof.
  unfold s', advance; simpl. pose proof P_deriv_bounds as [Hlo Hhi].
  split; nra.
Qed.

Lemma advance_T :
  Rabs (sh_T s' - sh_T s) <= 2 / 5 * (Tmax / Pmin) * (G * Mq * rho_max) * dr.
Proof.
  unfold s', advance; simpl.
  set (dPdr := P_deriv r (sh_M s) (sh_rho s)).
  set (dTdr := T_deriv _ _ _ _ _ _ _).
  pose proof P_deriv_bounds as [Hlo Hhi]. fold dPdr in Hlo, Hhi.
  pose proof G_pos as HG. pose proof Mq_nonneg as HMq.
  assert (Hb := T_deriv_le_conv r (sh_L s) (sh_kappa s) (sh_rho s) (sh_T s) (sh_P s) dPdr).
  fold dTdr in Hb. rewrite gamma_ratio in Hb.
  replace (sh_T s + dTdr * dr - sh_T s) with (dTdr * dr) by lra.
  rewrite Rabs_mult, (Rabs_pos_eq dr) by lra.
  apply Rmult_le_compat_r; [lra|].
  eapply Rle_trans; [exact Hb|].
  assert (Hq : 0 <= sh_T s / sh_P s <= Tmax / Pmin).
  { split.
    - apply div_nonneg; lra.
    - unfold Rdiv. apply Rmult_le_compat; [lra | | lra |].
      + left. apply Rinv_0_lt_compat. lra.
      + apply Rinv_le_contravar; lra. }
  rewrite !Rabs_mult. rewrite (Rabs_pos_eq (2 / 5)) by lra.
  rewrite (Rabs_pos_eq (sh_T s / sh_P s)) by lra.
  rewrite (Rabs_left1 dPdr) by lra.
  apply Rmult_le_compat; [| lra | | lra].
  - apply Rmult_le_pos; lra.
  - apply Rmult_le_compat_l; lra.
Qed.

Lemma advance_rho : sh_rho s' = calc_rho (sh_P s') (sh_T s') mbar.
Proof. done. Qed.
End OneStep.

(** ** A star too dilute for the grid

    When the central density is small enough, the pressure and the
    temperature stay within a factor of their central values over the whole
    grid, and the surface test never holds. *)

Lemma Rabs_le_between (x y : R) : Rabs x <= y -> - y <= x <= y.
Proof. unfold Rabs. destruct (Rcase_abs x); lra. Qed.

Section Dilute.
Variables (rmax : R) (n : nat) (T0 P0 X Y : R).
Hypothesis n_ge : (2 <= n)%nat.
Hypothesis rmax_pos : 0 < rmax.
Hypothesis T0_pos : 0 < T0.
Hypothesis P0_pos : 0 < P0.
Hypothesis mbar_pos : 0 < mean_mass X Y.

Let mbar := mean_mass X Y.
Let dr := delta_r rmax n.
Let rho_max := 2 * calc_rho P0 T0 mbar.
Hypothesis dilute : 4 * PI * G * rho_max ^ 2 * rmax ^ 2 <= 5 / 12 * P0.

Let N := INR (n - 1).
Let K := 4 * PI * rho_max * dr.
Let dP := G * (K * N) * rho_max * dr.
Let dT := 2 / 5 * ((3 / 2 * T0) / (P0 / 2)) * (G * (K * N) * rho_max) * dr.
Let sh := trajectory rmax n T0 P0 X Y.
Let rad (j : nat) := get (grid rmax n) j.
Let inside := within mbar K dP dT P0 T0 rad sh.

Lemma N_pos : 0 < N.
Proof using n_ge. unfold N. apply lt_0_INR. lia. Qed.

Lemma dr_rmax : N * dr = rmax.
Proof using n_ge.
  pose proof N_pos. unfold dr. rewrite delta_r_eq by done. fold N. field. lra.
Qed.

Lemma dr_pos : 0 < dr.
Proof using n_ge rmax_pos.
  pose proof N_pos. unfold dr. rewrite delta_r_eq by done. fold N.
  by apply Rdiv_lt_0_compat.
Qed.

Lemma rho_max_pos : 0 < rho_max.
Proof using T0_pos P0_pos mbar_pos.
  unfold rho_max. pose proof (calc_rho_pos P0 T0 mbar P0_pos T0_pos mbar_pos). lra.
Qed.

Lemma K_pos : 0 < K.
Proof using n_ge rmax_pos T0_pos P0_pos mbar_pos.
  pose proof PI_RGT_0. pose proof rho_max_pos. pose proof dr_pos.
  unfold K. pos.
Qed.

Lemma N_dP : N * dP = 4 * PI * G * rho_max ^ 2 * rmax ^ 2.
Proof using n_ge. unfold dP, K. rewrite <- dr_rmax. ring. Qed.

Lemma N_dP_le : N * dP <= 5 / 12 * P0.
Proof using n_ge dilute. by rewrite N_dP. Qed.

Lemma N_dT : N * dT = 6 / 5 * (T0 / P0) * (N * dP).
Proof using P0_pos. unfold dT, dP. field. lra. Qed.

Lemma N_dT_le : N * dT <= T0 / 2.
Proof using n_ge dilute T0_pos P0_pos.
  rewrite N_dT. pose proof N_dP_le as H.
  assert (Hq : 0 < T0 / P0) by (by apply Rdiv_lt_0_compat).
  apply Rle_trans with (6 / 5 * (T0 / P0) * (5 / 12 * P0)).
  - apply Rmult_le_compat_l; [lra | done].
  - right. field. lra.
Qed.

Lemma dP_nonneg : 0 <= dP.
Proof using n_ge rmax_pos T0_pos P0_pos mbar_pos.
  pose proof G_pos. pose proof K_pos. pose proof N_pos.
  pose proof rho_max_pos. pose proof dr_pos. unfold dP. nonneg.
Qed.

Lemma dT_nonneg : 0 <= dT.
Proof using n_ge rmax_pos T0_pos P0_pos mbar_pos.
  pose proof G_pos. pose proof K_pos. pose proof N_pos.
  pose proof rho_max_pos. pose proof dr_pos. unfold dT.
  assert (0 < 3 / 2 * T0 / (P0 / 2)) by (apply Rdiv_lt_0_compat; lra).
  nonneg.
Qed.

Lemma rad_eq (j : nat) : (j < n)%nat -> rad j = INR j * dr + dr / 2.
Proof using n_ge. intros Hj. unfold rad, dr. by apply get_grid. Qed.

Lemma within_P (j : nat) : (j <= n - 1)%nat -> inside j -> P0 / 2 <= sh_P (sh j) <= P0.
Proof using n_ge dilute rmax_pos T0_pos P0_pos mbar_pos.
  intros Hj (_ & [HP1 HP2] & _). split; [|done].
  pose proof N_dP_le. pose proof dP_nonneg.
  assert (INR j <= N) by (unfold N; apply le_INR; lia).
  assert (INR j * dP <= N * dP) by (apply Rmult_le_compat_r; lra).
  lra.
Qed.

Lemma within_T (j : nat) :
  (j <= n - 1)%nat -> inside j -> T0 / 2 <= sh_T (sh j) <= 3 / 2 * T0.
Proof using n_ge dilute rmax_pos T0_pos P0_pos mbar_pos.
  intros Hj (_ & _ & HT & _).
  pose proof N_dT_le. pose proof dT_nonneg.
  assert (INR j <= N) by (unfold N; apply le_INR; lia).
  assert (INR j * dT <= N * dT) by (apply Rmult_le_compat_r; lra).
  assert (Hab : Rabs (sh_T (sh j) - T0) <= T0 / 2) by lra.
  apply Rabs_le_between in Hab. lra.
Qed.

Lemma within_rho (j : nat) :
  (j <= n - 1)%nat -> inside j -> 0 < sh_rho (sh j) <= rho_max.
Proof using n_ge dilute rmax_pos T0_pos P0_pos mbar_pos.
  intros Hj Hw. pose proof (within_P j Hj Hw) as [HP1 HP2].
  pose proof (within_T j Hj Hw) as [HT1 HT2].
  destruct Hw as (_ & _ & _ & ->). split.
  - apply calc_rho_pos; [lra | lra | done].
  - apply Rle_trans with (calc_rho P0 (T0 / 2) mbar).
    + apply calc_rho_le; [done | lra | lra].
    + right. unfold rho_max, calc_rho. pose proof k_pos. field. lra.
Qed.

Lemma within_0 : inside 0.
Proof using n_ge rmax_pos T0_pos P0_pos mbar_pos.
  pose proof dP_nonneg. pose proof dT_nonneg.
  unfold inside, within, sh, trajectory; simpl.
  replace 0.0 with 0 by lra. rewrite Rminus_diag, Rabs_R0.
  repeat split; (done || lra).
Qed.

Lemma within_S (j : nat) : (S j <= n - 1)%nat -> inside j -> inside (S j).
Proof using n_ge dilute rmax_pos T0_pos P0_pos mbar_pos.
  intros Hj Hw.
  pose proof (within_P j ltac:(lia) Hw) as [HP1 HP2].
  pose proof (within_T j ltac:(lia) Hw) as [HT1 HT2].
  pose proof (within_rho j ltac:(lia) Hw) as [Hr1 Hr2].
  destruct Hw as (HM & [HPl HPu] & HT & Hrho).
  pose proof dr_pos as Hdr. pose proof K_pos as HK. pose proof G_pos as HG.
  pose proof rho_max_pos as HR. pose proof (pos_INR j) as Hj0.
  assert (HjN : INR j <= N) by (unfold N; apply le_INR; lia).
  assert (Hrj : 0 < rad j) by (rewrite rad_eq by lia; nra).
  assert (HrS : rad j <= rad (S j)).
  { rewrite !rad_eq by lia. rewrite S_INR. nra. }
  assert (HGq : G * (K * INR j) * rho_max * dr <= dP).
  { unfold dP. apply Rmult_le_compat_r; [lra|].
    apply Rmult_le_compat_r; [lra|]. apply Rmult_le_compat_l; [lra|].
    apply Rmult_le_compat_l; lra. }
  assert (HGq0 : 0 <= G * (K * INR j) * rho_max) by nonneg.
  unfold inside, within.
  change (sh (S j)) with (advance mbar X dr (rad j) (sh j)).
  pose proof (advance_M mbar X dr (rad j) (sh j) rho_max (K * INR j)
                Hdr Hrj ltac:(lra) HM) as [HM1 HM2].
  pose proof (advance_P mbar X dr (rad j) (sh j) rho_max (K * INR j)
                Hdr Hrj ltac:(lra) HM) as [HP1' HP2'].
  pose proof (advance_T mbar X dr (rad j) (sh j) (P0 / 2) (T0 / 2) (3 / 2 * T0)
                rho_max (K * INR j) Hdr Hrj ltac:(lra) ltac:(lra) ltac:(lra)
                ltac:(lra) HM) as HT'.
  set (s' := advance mbar X dr (rad j) (sh j)) in *.
  rewrite S_INR. repeat split.
  - lra.
  - fold K in HM2. eapply Rle_trans; [exact HM2|].
    replace (K * INR j + K) with (K * (INR j + 1)) by ring.
    apply Rmult_le_compat_l; [nra|].
    apply pow_incr. lra.
  - lra.
  - lra.
  - replace (sh_T s' - T0) with ((sh_T s' - sh_T (sh j)) + (sh_T (sh j) - T0)) by lra.
    eapply Rle_trans; [apply Rabs_triang|].
    assert (Hd : 2 / 5 * (3 / 2 * T0 / (P0 / 2)) * (G * (K * INR j) * rho_max) * dr <= dT).
    { unfold dT. apply Rmult_le_compat_r; [lra|].
      apply Rmult_le_compat_l.
      - assert (0 < 3 / 2 * T0 / (P0 / 2)) by (apply Rdiv_lt_0_compat; lra). nra.
      - apply Rmult_le_compat_r; [lra|]. apply Rmult_le_compat_l; [lra|].
        apply Rmult_le_compat_l; lra. }
    lra.
Qed.

Lemma within_all (j : nat) : (j <= n - 1)%nat -> inside j.
Proof using n_ge dilute rmax_pos T0_pos P0_pos mbar_pos.
  induction j as [|j IH]; intros Hj; [apply within_0|].
  apply within_S; [done|]. apply IH. lia.
Qed.

Lemma dilute_no_surface (j : nat) : (j < n)%nat -> ~ at_surface (sh j).
Proof using n_ge dilute rmax_pos T0_pos P0_pos mbar_pos.
  intros Hj. assert (Hj' : (j <= n - 1)%nat) by lia.
  pose proof (within_all j Hj') as Hw.
  pose proof (within_P j Hj' Hw). pose proof (within_T j Hj' Hw).
  pose proof (within_rho j Hj' Hw).
  unfold at_surface. lra.
Qed.
End Dilute.

Lemma nstep_ge : (2 <= nstep)%nat.
Proof. unfold nstep. lia. Qed.

Lemma rmax_pos : 0 < rmax.
Proof. unfold rmax. lra. Qed.

Lemma INR_nstep_pred : INR (nstep - 1) = 99999.
Proof.
  unfold nstep. replace (Z.to_nat 100000 - 1)%nat with (Z.to_nat 99999) by lia.
  rewrite INR_IZR_INZ. rewrite Z2Nat.id by lia. done.
Qed.

Lemma mean_mass_solar : mean_mass 0.7 0.28 = 3.4e-24 / 3.24.
Proof. unfold mean_mass, mH. lra. Qed.

Lemma dilute_cloud_exhausted : grid_exhausted 1.5e7 1.0 0.7 0.28.
Proof.
  intros j [_ Hj]. unfold shell_of.
  apply dilute_no_surface; try lra.
  - apply nstep_ge.
  - apply rmax_pos.
  - rewrite mean_mass_solar. lra.
  - rewrite mean_mass_solar. unfold calc_rho, rmax, G, k.
    pose proof PI_4. pose proof PI_RGT_0. lra.
  - done.
Qed.

(** ** The first two steps *)

Lemma P_deriv_massless (r rho : R) : P_deriv r 0 rho = 0.
Proof. unfold P_deriv. unfold Rdiv. ring. Qed.

Lemma T_deriv_at_rest (r kappa rho T P : R) : T_deriv r 0 kappa rho T P 0 = 0.
Proof.
  unfold T_deriv, T_deriv_rad.
  replace (- (3 * 0 * kappa * rho) / (4 * PI * r ^ 2 * (4 * a * c * T ^ 3)))
    with 0 by (unfold Rdiv; ring).
  replace ((gamma - 1) / gamma * (T / P) * 0) with 0 by ring.
  destruct (Rgt_dec (Rabs 0) (Rabs 0)) as [H|H]; [lra | done].
Qed.

Section FirstSteps.
Variables (rmax : R) (n : nat) (T0 P0 X Y : R).
Hypothesis n_ge : (3 <= n)%nat.

Let mbar := mean_mass X Y.
Let dr := delta_r rmax n.
Let rho0 := calc_rho P0 T0 mbar.
Let sh := trajectory rmax n T0 P0 X Y.

(** The first step leaves the pressure, the temperature and the density
    at their central values: the centre encloses no mass and emits no
    light. *)
Lemma first_step :
  sh_M (sh 1) = PI * rho0 * dr ^ 3 /\
  sh_P (sh 1) = P0 /\ sh_T (sh 1) = T0 /\ sh_rho (sh 1) = rho0.
Proof using n_ge.
  unfold sh, trajectory; simpl. replace 0.0 with 0 by lra.
  rewrite P_deriv_massless, T_deriv_at_rest.
  rewrite get_grid by lia. fold dr. fold mbar. fold rho0.
  change (INR 0) with 0. unfold M_deriv. replace 4.0 with 4 by lra.
  rewrite !Rmult_0_l, !Rplus_0_r. repeat split; try done.
  field.
Qed.

Lemma second_pressure :
  dr <> 0 -> sh_P (sh 2) = P0 - 4 / 9 * PI * G * rho0 ^ 2 * dr ^ 2.
Proof using n_ge.
  intros Hdr. destruct first_step as (HM & HP & HT & Hrho).
  change (sh 2%nat) with (advance mbar X dr (get (grid rmax n) 1) (sh 1%nat)).
  revert HM HP HT Hrho. generalize (sh 1%nat). intros s1 HM HP HT Hrho.
  unfold advance; simpl. rewrite HM, HP, Hrho.
  rewrite get_grid by lia. fold dr. change (INR 1) with 1.
  unfold P_deriv. field. lra.
Qed.
End FirstSteps.

Lemma delta_r_make_star : delta_r rmax nstep = 1.0e12 / 99999.
Proof. rewrite delta_r_eq by apply nstep_ge. by rewrite INR_nstep_pred. Qed.

(** A centre so dense that the pressure is exhausted by the second step. *)
Lemma dense_core_surface :
  at_surface (shell_of 1.5e7 1.0e24 0.7 0.28 2) /\
  ~ at_surface (shell_of 1.5e7 1.0e24 0.7 0.28 1).
Proof.
  assert (Hn : (3 <= nstep)%nat) by (unfold nstep; lia).
  pose proof PI2_3_2 as Hpi.
  split.
  - left. unfold shell_of. rewrite second_pressure by (done || rewrite delta_r_make_star; lra).
    rewrite delta_r_make_star, mean_mass_solar. unfold calc_rho, G, k. lra.
  - unfold shell_of.
    destruct (first_step rmax nstep 1.5e7 1.0e24 0.7 0.28 Hn) as (_ & HP & HT & Hrho).
    unfold at_surface. rewrite HP, HT, Hrho, mean_mass_solar. unfold calc_rho, k. lra.
Qed.

(** ** Returned profiles *)

Lemma shell_eta (s : shell) :
  Shell (sh_M s) (sh_P s) (sh_T s) (sh_L s) (sh_rho s) (sh_kappa s) (sh_epsilon s) = s.
Proof. by destruct s. Qed.

Section Profile.
Variables (rmax : R) (n : nat) (T0 P0 X Y : R) (i : nat).
Let o := profile rmax n T0 P0 X Y i.

Lemma entry_profile (j : nat) :
  entry o j = if decide (j <= i)%nat then Some (trajectory rmax n T0 P0 X Y j) else None.
Proof.
  unfold entry, o, profile; simpl. rewrite !list_lookup_fmap.
  case_decide as Hj.
  - rewrite lookup_seq_lt by lia. simpl. by rewrite shell_eta.
  - by rewrite lookup_seq_ge by lia.
Qed.

Lemma entry_profile_Some (j : nat) (s : shell) :
  entry o j = Some s -> (j <= i)%nat /\ s = trajectory rmax n T0 P0 X Y j.
Proof. rewrite entry_profile. case_decide; [|done]. by intros [= <-]. Qed.

Lemma profile_lengths :
  (i < n)%nat ->
  length (out_r o) = S i /\ length (out_M o) = S i /\ length (out_P o) = S i /\
  length (out_T o) = S i /\ length (out_L o) = S i /\ length (out_rho o) = S i /\
  length (out_kappa o) = S i /\ length (out_epsilon o) = S i.
Proof.
  intros Hi. unfold o, profile; simpl.
  rewrite !length_fmap, !length_seq, length_take, length_grid.
  repeat split; lia.
Qed.

Lemma profile_r (j : nat) :
  (j <= i < n)%nat -> out_r o !! j = Some (get (grid rmax n) j).
Proof.
  intros Hj. unfold o, profile; simpl. rewrite lookup_take_lt by lia.
  apply lookup_get. rewrite length_grid. lia.
Qed.

Lemma profile_report :
  (i < n)%nat ->
  r_star o = get (out_r o) i /\ M_star o = get (out_M o) i /\ L_star o = get (out_L o) i.
Proof.
  intros Hi. unfold o, profile; simpl.
  rewrite get_take by lia.
  split; [done|]. split; symmetry; apply get_lookup;
    rewrite list_lookup_fmap, lookup_seq_lt by lia; done.
Qed.
End Profile.

(** ** [make_star] *)

(** Every call with a non-zero denominator in [mbar] returns: the profile
    cut after the first index at which the surface test holds, or after the
    last index of the grid. *)
Lemma make_star_profile (T0 P0 X Y : R) :
  1 + 3 * X + 0.5 * Y <> 0 ->
  exists i : nat,
    (1 <= i < nstep)%nat /\
    make_star T0 P0 X Y = Returned (profile rmax nstep T0 P0 X Y i) /\
    (forall j : nat, (1 <= j < i)%nat -> ~ at_surface (shell_of T0 P0 X Y j)) /\
    (at_surface (shell_of T0 P0 X Y i) \/ i = (nstep - 1)%nat).
Proof. intros Hden. apply build_star_profile; [done | apply nstep_ge]. Qed.

Lemma make_star_zero_division (T0 P0 X Y : R) :
  1 + 3 * X + 0.5 * Y = 0 -> make_star T0 P0 X Y = ZeroDivisionError.
Proof.
  intros Hden. unfold make_star, build_star.
  destruct (Req_dec_T _ _) as [_|Hne]; [done|]. exfalso. apply Hne. lra.
Qed.

(** The index at which the loop stops, when the surface test first holds
    at [i]. *)
Lemma make_star_cut (T0 P0 X Y : R) (i : nat) :
  1 + 3 * X + 0.5 * Y <> 0 ->
  (1 <= i < nstep)%nat ->
  at_surface (shell_of T0 P0 X Y i) ->
  (forall j : nat, (1 <= j < i)%nat -> ~ at_surface (shell_of T0 P0 X Y j)) ->
  make_star T0 P0 X Y = Returned (profile rmax nstep T0 P0 X Y i).
Proof.
  intros Hden Hi Hat Hbefore.
  destruct (make_star_profile T0 P0 X Y Hden) as (m & Hm & Heq & Hb & Hlast).
  assert (m = i) as ->; [|done].
  destruct (lt_eq_lt_dec m i) as [[Hlt|Heqm]|Hgt]; [| done |].
  - destruct Hlast as [Hs|Hs]; [|lia]. exfalso. apply (Hbefore m); [lia | done].
  - exfalso. apply (Hb i); [lia | done].
Qed.

Lemma make_star_full (T0 P0 X Y : R) :
  1 + 3 * X + 0.5 * Y <> 0 ->
  grid_exhausted T0 P0 X Y ->
  make_star T0 P0 X Y = Returned (profile rmax nstep T0 P0 X Y (nstep - 1)).
Proof.
  intros Hden Hex.
  destruct (make_star_profile T0 P0 X Y Hden) as (m & Hm & Heq & Hb & Hlast).
  destruct Hlast as [Hs| ->]; [|done].
  exfalso. by apply (Hex m).
Qed.

Lemma solar_composition : 1 + 3 * 0.7 + 0.5 * 0.28 <> 0.
Proof. lra. Qed.

Lemma dense_core_profile :
  make_star 1.5e7 1.0e24 0.7 0.28 = Returned (profile rmax nstep 1.5e7 1.0e24 0.7 0.28 2).
Proof.
  destruct dense_core_surface as [H2 H1].
  apply make_star_cut; [apply solar_composition | unfold nstep; lia | done |].
  intros j Hj. by replace j with 1%nat by lia.
Qed.

(** * The statements of the specification *)

(** C1.  In every run, advancing stops at the first index [i >= 1] at
    which [P_i <= 0] or [T_i <= 0] or [rho_i <= 0]; that step is the last one
    retained: the eight returned sequences have the entries of the indices
    [0..i] and no more, and the reported radius, mass and luminosity are
    [r[i]], [M[i]] and [L[i]]. *)
Theorem make_star_stops_at_first_surface (T0 P0 X Y : R) (i : nat) :
  1 + 3 * X + 0.5 * Y <> 0 ->
  (1 <= i < nstep)%nat ->
  at_surface (shell_of T0 P0 X Y i) ->
  (forall j : nat, (1 <= j < i)%nat -> ~ at_surface (shell_of T0 P0 X Y j)) ->
  exists o : star,
    make_star T0 P0 X Y = Returned o /\
    (length (out_r o) = S i /\ length (out_M o) = S i /\ length (out_P o) = S i /\
     length (out_T o) = S i /\ length (out_L o) = S i /\ length (out_rho o) = S i /\
     length (out_kappa o) = S i /\ length (out_epsilon o) = S i) /\
    (forall j : nat, (j <= i)%nat ->
       out_r o !! j = Some (get (grid rmax nstep) j) /\
       entry o j = Some (shell_of T0 P0 X Y j)) /\
    r_star o = get (out_r o) i /\ M_star o = get (out_M o) i /\
    L_star o = get (out_L o) i.
Proof.
  intros Hden Hi Hat Hbefore.
  exists (profile rmax nstep T0 P0 X Y i).
  split; [by apply make_star_cut|].
  split; [apply profile_lengths; lia|].
  split; [|apply profile_report; lia].
  intros j Hj. split; [apply profile_r; lia|].
  rewrite entry_profile. by rewrite decide_True.
Qed.

(** C1 at [T0 = 1.5e7], [P0 = 1e24], [X = 0.7], [Y = 0.28]: the surface
    test first holds at index 2. *)
Lemma make_star_stops_at_first_surface_witness :
  exists o : star,
    make_star 1.5e7 1.0e24 0.7 0.28 = Returned o /\
    (length (out_r o) = 3%nat /\ length (out_M o) = 3%nat /\ length (out_P o) = 3%nat /\
     length (out_T o) = 3%nat /\ length (out_L o) = 3%nat /\ length (out_rho o) = 3%nat /\
     length (out_kappa o) = 3%nat /\ length (out_epsilon o) = 3%nat) /\
    (forall j : nat, (j <= 2)%nat ->
       out_r o !! j = Some (get (grid rmax nstep) j) /\
       entry o j = Some (shell_of 1.5e7 1.0e24 0.7 0.28 j)) /\
    r_star o = get (out_r o) 2 /\ M_star o = get (out_M o) 2 /\
    L_star o = get (out_L o) 2.
Proof.
  apply (make_star_stops_at_first_surface 1.5e7 1.0e24 0.7 0.28 2).
  - lra.
  - unfold nstep. lia.
  - apply dense_core_surface.
  - intros j Hj. replace j with 1%nat by lia. apply dense_core_surface.
Defined.

Lemma grid_last : get (grid rmax nstep) (nstep - 1) = rmax + delta_r rmax nstep / 2.
Proof.
  pose proof nstep_ge as Hn. rewrite get_grid by lia.
  by rewrite (dr_rmax rmax nstep Hn).
Qed.

Lemma not_at_surface (s : shell) :
  ~ at_surface s <-> 0 < sh_P s /\ 0 < sh_T s /\ 0 < sh_rho s.
Proof. unfold at_surface. split; intros H; lra. Qed.

(** C2, as the code has it.  When the loop completes all its steps without
    the surface test holding, [make_star] returns as in any other run: the
    profile of all [nstep] entries, with the last grid point, [M[nstep-1]]
    and [L[nstep-1]] reported as radius, mass and luminosity of the star.
    The result carries no mark of how the loop ended: it is
    [profile ... (nstep - 1)], the value that [make_star_cut] gives when the
    surface test first holds at the last index. *)
Theorem make_star_exhausted_returns_plain_profile (T0 P0 X Y : R) :
  1 + 3 * X + 0.5 * Y <> 0 ->
  grid_exhausted T0 P0 X Y ->
  exists o : star,
    make_star T0 P0 X Y = Returned o /\
    (length (out_r o) = nstep /\ length (out_M o) = nstep /\
     length (out_P o) = nstep /\ length (out_T o) = nstep /\
     length (out_L o) = nstep /\ length (out_rho o) = nstep /\
     length (out_kappa o) = nstep /\ length (out_epsilon o) = nstep) /\
    (forall j : nat, (j < nstep)%nat ->
       out_r o !! j = Some (get (grid rmax nstep) j) /\
       entry o j = Some (shell_of T0 P0 X Y j)) /\
    reported_as_star o /\
    r_star o = rmax + delta_r rmax nstep / 2 /\
    o = profile rmax nstep T0 P0 X Y (nstep - 1).
Proof.
  intros Hden Hex. pose proof nstep_ge as Hn.
  exists (profile rmax nstep T0 P0 X Y (nstep - 1)).
  split; [by apply make_star_full|].
  pose proof (profile_lengths rmax nstep T0 P0 X Y (nstep - 1) ltac:(lia)) as Hlen.
  replace (S (nstep - 1)) with nstep in Hlen by lia.
  split; [done|]. split; [|split].
  - intros j Hj. split; [apply profile_r; lia|].
    rewrite entry_profile. by rewrite decide_True by lia.
  - unfold reported_as_star. destruct Hlen as [-> _].
    apply profile_report. lia.
  - split; [apply grid_last | done].
Qed.

(** C2 (as the code has it) at [T0 = 1.5e7], [P0 = 1], [X = 0.7],
    [Y = 0.28]. *)
Lemma make_star_exhausted_returns_plain_profile_witness :
  grid_exhausted 1.5e7 1.0 0.7 0.28 /\
  exists o : star,
    make_star 1.5e7 1.0 0.7 0.28 = Returned o /\
    (length (out_r o) = nstep /\ length (out_M o) = nstep /\
     length (out_P o) = nstep /\ length (out_T o) = nstep /\
     length (out_L o) = nstep /\ length (out_rho o) = nstep /\
     length (out_kappa o) = nstep /\ length (out_epsilon o) = nstep) /\
    (forall j : nat, (j < nstep)%nat ->
       out_r o !! j = Some (get (grid rmax nstep) j) /\
       entry o j = Some (shell_of 1.5e7 1.0 0.7 0.28 j)) /\
    reported_as_star o /\
    r_star o = rmax + delta_r rmax nstep / 2 /\
    o = profile rmax nstep 1.5e7 1.0 0.7 0.28 (nstep - 1).
Proof.
  split; [apply dilute_cloud_exhausted|].
  apply (make_star_exhausted_returns_plain_profile 1.5e7 1.0 0.7 0.28).
  - lra.
  - apply dilute_cloud_exhausted.
Defined.

(** C2, refuted as stated.  A cloud with central pressure 1 erg/cm^3 at
    1.5e7 K never meets the surface test on the grid; the call returns an
    ordinary profile and reports the end of the grid as the radius of the
    star, in the very form in which the call with central pressure 1e24
    reports the surface it detects at index 2. *)
Lemma make_star_exhausted_untagged :
  grid_exhausted 1.5e7 1.0 0.7 0.28 /\
  (exists o : star,
     make_star 1.5e7 1.0 0.7 0.28 = Returned o /\
     length (out_r o) = nstep /\ reported_as_star o /\
     r_star o = rmax + delta_r rmax nstep / 2) /\
  (exists o' : star,
     make_star 1.5e7 1.0e24 0.7 0.28 = Returned o' /\
     length (out_r o') = 3%nat /\ reported_as_star o').
Proof.
  pose proof nstep_ge as Hn.
  split; [apply dilute_cloud_exhausted|]. split.
  - exists (profile rmax nstep 1.5e7 1.0 0.7 0.28 (nstep - 1)).
    split; [apply make_star_full; [lra | apply dilute_cloud_exhausted]|].
    pose proof (profile_lengths rmax nstep 1.5e7 1.0 0.7 0.28 (nstep - 1) ltac:(lia))
      as [Hlen _].
    replace (S (nstep - 1)) with nstep in Hlen by lia.
    split; [done|]. split; [|apply grid_last].
    unfold reported_as_star. rewrite Hlen. apply profile_report. lia.
  - exists (profile rmax nstep 1.5e7 1.0e24 0.7 0.28 2).
    split; [apply dense_core_profile|].
    pose proof (profile_lengths rmax nstep 1.5e7 1.0e24 0.7 0.28 2
                  ltac:(unfold nstep; lia)) as [Hlen _].
    split; [done|]. unfold reported_as_star. rewrite Hlen.
    apply profile_report. unfold nstep. lia.
Qed.

(** C3, as the code has it.  [make_star] checks neither the composition nor
    the central values.  Whatever [T0], [P0], [X] and [Y] are, if the
    denominator of [mbar] is not zero the call integrates (the entry of
    index 1 is one step from the centre) and returns; if it is zero, the
    division that computes [mbar] raises before anything else runs. *)
Theorem make_star_no_validation (T0 P0 X Y : R) :
  (1 + 3 * X + 0.5 * Y <> 0 ->
   exists o : star,
     make_star T0 P0 X Y = Returned o /\
     (2 <= length (out_P o))%nat /\
     entry o 0 = Some (center T0 P0 X Y) /\
     entry o 1 =
       Some (advance (mean_mass X Y) X (delta_r rmax nstep)
               (get (grid rmax nstep) 0) (center T0 P0 X Y))) /\
  (1 + 3 * X + 0.5 * Y = 0 -> make_star T0 P0 X Y = ZeroDivisionError).
Proof.
  split; [|apply make_star_zero_division].
  intros Hden.
  destruct (make_star_profile T0 P0 X Y Hden) as (i & Hi & Heq & _).
  exists (profile rmax nstep T0 P0 X Y i). split; [done|].
  pose proof (profile_lengths rmax nstep T0 P0 X Y i ltac:(lia))
    as (_ & _ & HP & _).
  split; [lia|].
  rewrite !entry_profile, !decide_True by lia. done.
Qed.

(** C3 (as the code has it) at the values of the notebook. *)
Lemma make_star_no_validation_witness :
  exists o : star,
    make_star 1.5e7 1.0e18 0.7 0.28 = Returned o /\
    (2 <= length (out_P o))%nat /\
    entry o 0 = Some (center 1.5e7 1.0e18 0.7 0.28) /\
    entry o 1 =
      Some (advance (mean_mass 0.7 0.28) 0.7 (delta_r rmax nstep)
              (get (grid rmax nstep) 0) (center 1.5e7 1.0e18 0.7 0.28)).
Proof.
  apply (proj1 (make_star_no_validation 1.5e7 1.0e18 0.7 0.28)). lra.
Defined.

(** C3, refuted as stated.  The call with [X = Y = 0.9] is not rejected,
    and neither is the call with a negative central pressure: both return a
    profile with at least the entries of the centre and of one step. *)
Lemma make_star_accepts_invalid_input :
  (exists o : star,
     make_star 1.5e7 1.0e18 0.9 0.9 = Returned o /\ (2 <= length (out_P o))%nat) /\
  (exists o : star,
     make_star 1.5e7 (-1.0) 0.7 0.28 = Returned o /\ (2 <= length (out_P o))%nat).
Proof.
  split.
  - destruct (make_star_profile 1.5e7 1.0e18 0.9 0.9 ltac:(lra)) as (i & Hi & Heq & _).
    eexists. split; [exact Heq|].
    pose proof (profile_lengths rmax nstep 1.5e7 1.0e18 0.9 0.9 i ltac:(lia))
      as (_ & _ & HP & _). lia.
  - destruct (make_star_profile 1.5e7 (-1.0) 0.7 0.28 ltac:(lra)) as (i & Hi & Heq & _).
    eexists. split; [exact Heq|].
    pose proof (profile_lengths rmax nstep 1.5e7 (-1.0) 0.7 0.28 i ltac:(lia))
      as (_ & _ & HP & _). lia.
Qed.

(** C4, as the code has it.  In every returned profile the entries after
    the centre and before the last one have [P > 0], [T > 0] and [rho > 0];
    so has the centre when the central pressure and temperature and the
    mean particle mass are positive; and when the profile stops short of
    the grid, its last entry is the step at which the surface test held. *)
Theorem make_star_interior_positive (T0 P0 X Y : R) :
  1 + 3 * X + 0.5 * Y <> 0 ->
  exists o : star,
    make_star T0 P0 X Y = Returned o /\
    (forall (j : nat) (s : shell),
       (1 <= j)%nat -> (S j < length (out_P o))%nat -> entry o j = Some s ->
       0 < sh_P s /\ 0 < sh_T s /\ 0 < sh_rho s) /\
    (0 < P0 -> 0 < T0 -> 0 < mean_mass X Y ->
     forall s : shell, entry o 0 = Some s ->
       0 < sh_P s /\ 0 < sh_T s /\ 0 < sh_rho s) /\
    ((length (out_P o) < nstep)%nat ->
     exists s : shell, entry o (length (out_P o) - 1) = Some s /\ at_surface s).
Proof.
  intros Hden.
  destruct (make_star_profile T0 P0 X Y Hden) as (i & Hi & Heq & Hb & Hlast).
  exists (profile rmax nstep T0 P0 X Y i). split; [done|].
  pose proof (profile_lengths rmax nstep T0 P0 X Y i ltac:(lia))
    as (_ & _ & HP & _).
  rewrite HP. split; [|split].
  - intros j s Hj1 Hj2 Hs. apply entry_profile_Some in Hs as [_ ->].
    apply not_at_surface. apply Hb. lia.
  - intros HP0 HT0 Hm s Hs. apply entry_profile_Some in Hs as [_ ->].
    simpl. repeat split; [done | done |]. by apply calc_rho_pos.
  - intros Hshort. exists (trajectory rmax nstep T0 P0 X Y i).
    replace (S i - 1)%nat with i by lia.
    split; [rewrite entry_profile; by rewrite decide_True|].
    destruct Hlast as [Hs|Hs]; [done | lia].
Qed.

(** C4 (as the code has it) at the values of the notebook. *)
Lemma make_star_interior_positive_witness :
  exists o : star,
    make_star 1.5e7 1.0e18 0.7 0.28 = Returned o /\
    (forall (j : nat) (s : shell),
       (1 <= j)%nat -> (S j < length (out_P o))%nat -> entry o j = Some s ->
       0 < sh_P s /\ 0 < sh_T s /\ 0 < sh_rho s) /\
    (0 < 1.0e18 -> 0 < 1.5e7 -> 0 < mean_mass 0.7 0.28 ->
     forall s : shell, entry o 0 = Some s ->
       0 < sh_P s /\ 0 < sh_T s /\ 0 < sh_rho s) /\
    ((length (out_P o) < nstep)%nat ->
     exists s : shell, entry o (length (out_P o) - 1) = Some s /\ at_surface s).
Proof.
  apply (make_star_interior_positive 1.5e7 1.0e18 0.7 0.28). lra.
Defined.

(** C4, refuted as stated.  With central pressure 1e24 erg/cm^3 at 1.5e7 K
    the returned profile has three entries, and the pressure of the last
    one, at index 2, is not positive. *)
Lemma make_star_last_step_nonpositive :
  exists (o : star) (s : shell),
    make_star 1.5e7 1.0e24 0.7 0.28 = Returned o /\
    length (out_P o) = 3%nat /\
    entry o 2 = Some s /\
    sh_P s <= 0 /\
    ~ (0 < sh_P s /\ 0 < sh_T s /\ 0 < sh_rho s).
Proof.
  exists (profile rmax nstep 1.5e7 1.0e24 0.7 0.28 2),
         (shell_of 1.5e7 1.0e24 0.7 0.28 2).
  split; [apply dense_core_profile|].
  pose proof (profile_lengths rmax nstep 1.5e7 1.0e24 0.7 0.28 2 ltac:(unfold nstep; lia))
    as (_ & _ & HP & _).
  split; [done|]. split; [rewrite entry_profile; by rewrite decide_True|].
  assert (Hs : sh_P (shell_of 1.5e7 1.0e24 0.7 0.28 2) <= 0).
  { assert (Hn : (3 <= nstep)%nat) by (unfold nstep; lia).
    pose proof PI2_3_2 as Hpi. unfold shell_of.
    rewrite second_pressure by (done || rewrite delta_r_make_star; lra).
    rewrite delta_r_make_star, mean_mass_solar. unfold calc_rho, G, k. lra. }
  split; [done | lra].
Qed.

(** C5, as the code has it.  The grid of [make_star] ([rmax = 1e12],
    [nstep = 100000]) has exactly 100000 points, consecutive points are
    [dr = rmax / (nstep - 1)] apart, the first point is [dr / 2], and the
    last point is [rmax + dr / 2]: every point of [linspace], the last one
    included, is shifted up by half a step. *)
Theorem grid_make_star :
  length (grid rmax nstep) = Z.to_nat 100000 /\
  delta_r rmax nstep = 1.0e12 / (100000 - 1) /\
  (forall i : nat, (S i < nstep)%nat ->
     get (grid rmax nstep) (S i) - get (grid rmax nstep) i = delta_r rmax nstep) /\
  grid rmax nstep !! 0%nat = Some (delta_r rmax nstep / 2) /\
  grid rmax nstep !! (nstep - 1)%nat = Some (rmax + delta_r rmax nstep / 2).
Proof.
  pose proof nstep_ge as Hn.
  split; [apply length_grid|].
  split; [rewrite delta_r_make_star; lra|].
  split; [|split].
  - intros i Hi. rewrite !get_grid by lia. rewrite S_INR. lra.
  - rewrite lookup_get by (rewrite length_grid; lia).
    rewrite get_grid by lia. change (INR 0) with 0. f_equal. lra.
  - rewrite lookup_get by (rewrite length_grid; lia).
    by rewrite grid_last.
Qed.

(** C5, refuted as stated.  The last of the 100000 grid points is not
    [rmax - dr / 2]. *)
Lemma grid_last_point_not_below_rmax :
  grid rmax nstep !! (nstep - 1)%nat <> Some (rmax - delta_r rmax nstep / 2).
Proof.
  pose proof nstep_ge as Hn.
  rewrite lookup_get by (rewrite length_grid; lia).
  rewrite grid_last. intros [= Heq].
  rewrite delta_r_make_star in Heq. lra.
Qed.

(** C6.  Every call that reaches the loop returns a profile of [n >= 2]
    entries that starts at the centre ([M = 0], [P = P0], [T = T0],
    [L = 0]) and in which every index below [n] holds an entry, at the
    radius [(j + 1/2) dr]; each entry after the first is the entry before
    it advanced by one explicit Euler step: [M], [P], [T] and [L] are the
    previous values plus derivative times [dr], every derivative taken on
    the previous entry (the previous density included), and [rho], [kappa]
    and [epsilon] are recomputed from the new [P] and [T] and the
    composition. *)
Theorem make_star_euler_step (T0 P0 X Y : R) :
  1 + 3 * X + 0.5 * Y <> 0 ->
  exists (o : star) (n : nat),
    make_star T0 P0 X Y = Returned o /\
    (2 <= n <= nstep)%nat /\
    (forall j : nat, (j < n)%nat ->
       out_r o !! j = Some (INR j * delta_r rmax nstep + delta_r rmax nstep / 2) /\
       exists s : shell, entry o j = Some s) /\
    entry o 0 = Some (center T0 P0 X Y) /\
    forall (i : nat) (p s : shell),
      entry o i = Some p -> entry o (S i) = Some s ->
      let dr := delta_r rmax nstep in
      let r_prev := get (out_r o) i in
      let dPdr := P_deriv r_prev (sh_M p) (sh_rho p) in
      sh_M s = sh_M p + M_deriv r_prev (sh_rho p) * dr /\
      sh_P s = sh_P p + dPdr * dr /\
      sh_T s =
        sh_T p
        + T_deriv r_prev (sh_L p) (sh_kappa p) (sh_rho p) (sh_T p) (sh_P p) dPdr * dr /\
      sh_L s = sh_L p + L_deriv r_prev (sh_rho p) (sh_epsilon p) * dr /\
      sh_rho s = calc_rho (sh_P s) (sh_T s) (mean_mass X Y) /\
      sh_kappa s = calc_kappa X /\
      sh_epsilon s = calc_epsilon (sh_rho s) (sh_T s) X.
Proof.
  intros Hden. pose proof nstep_ge as Hn.
  destruct (make_star_profile T0 P0 X Y Hden) as (m & Hm & Heq & _).
  exists (profile rmax nstep T0 P0 X Y m), (S m). split; [done|].
  split; [lia|]. split; [|split].
  - intros j Hj. split.
    + rewrite profile_r by lia. f_equal. apply get_grid; lia.
    + exists (trajectory rmax nstep T0 P0 X Y j).
      rewrite entry_profile. by rewrite decide_True by lia.
  - rewrite entry_profile. by rewrite decide_True by lia.
  - intros i p s Hp Hs dr r_prev dPdr.
    apply entry_profile_Some in Hp as [_ ->].
    apply entry_profile_Some in Hs as [Hi ->].
    assert (Hr : r_prev = get (grid rmax nstep) i).
    { unfold r_prev. apply get_lookup. apply profile_r. lia. }
    unfold dPdr. rewrite Hr.
    change (trajectory rmax nstep T0 P0 X Y (S i))
      with (advance (mean_mass X Y) X dr (get (grid rmax nstep) i)
              (trajectory rmax nstep T0 P0 X Y i)).
    generalize (trajectory rmax nstep T0 P0 X Y i). intros q.
    unfold advance. cbn [sh_M sh_P sh_T sh_L sh_rho sh_kappa sh_epsilon].
    repeat split; reflexivity.
Qed.

(** C6 at the values of the notebook. *)
Lemma make_star_euler_step_witness :
  exists (o : star) (n : nat),
    make_star 1.5e7 1.0e18 0.7 0.28 = Returned o /\
    (2 <= n <= nstep)%nat /\
    (forall j : nat, (j < n)%nat ->
       out_r o !! j = Some (INR j * delta_r rmax nstep + delta_r rmax nstep / 2) /\
       exists s : shell, entry o j = Some s) /\
    entry o 0 = Some (center 1.5e7 1.0e18 0.7 0.28) /\
    forall (i : nat) (p s : shell),
      entry o i = Some p -> entry o (S i) = Some s ->
      let dr := delta_r rmax nstep in
      let r_prev := get (out_r o) i in
      let dPdr := P_deriv r_prev (sh_M p) (sh_rho p) in
      sh_M s = sh_M p + M_deriv r_prev (sh_rho p) * dr /\
      sh_P s = sh_P p + dPdr * dr /\
      sh_T s =
        sh_T p
        + T_deriv r_prev (sh_L p) (sh_kappa p) (sh_rho p) (sh_T p) (sh_P p) dPdr * dr /\
      sh_L s = sh_L p + L_deriv r_prev (sh_rho p) (sh_epsilon p) * dr /\
      sh_rho s = calc_rho (sh_P s) (sh_T s) (mean_mass 0.7 0.28) /\
      sh_kappa s = calc_kappa 0.7 /\
      sh_epsilon s = calc_epsilon (sh_rho s) (sh_T s) 0.7.
Proof.
  apply (make_star_euler_step 1.5e7 1.0e18 0.7 0.28). lra.
Defined.

(** C7.  [T_deriv] computes the radiative gradient [T_deriv_rad] and the
    convective threshold [((gamma - 1) / gamma) * (T / P) * dPdr] with
    [gamma = 5/3]; it returns the threshold when the radiative gradient is
    larger in absolute value, and the radiative gradient otherwise.  The
    result is a function of the arguments of the call alone. *)
Theorem T_deriv_selects (r L kappa rho T P dPdr : R) :
  gamma = 5 / 3 /\
  (Rabs (T_deriv_rad r L kappa rho T) > Rabs ((gamma - 1) / gamma * (T / P) * dPdr) ->
   T_deriv r L kappa rho T P dPdr = (gamma - 1) / gamma * (T / P) * dPdr) /\
  (Rabs (T_deriv_rad r L kappa rho T) <= Rabs ((gamma - 1) / gamma * (T / P) * dPdr) ->
   T_deriv r L kappa rho T P dPdr = T_deriv_rad r L kappa rho T).
Proof.
  split; [unfold gamma; lra|].
  unfold T_deriv. destruct (Rgt_dec _ _) as [Hgt|Hle]; split; intros H; (done || lra).
Qed.

(** The radiative gradient of a shell at 1e10 cm that carries 1e33 erg/s,
    against the threshold at [T = 1.5e7], [P = 1e18], [dPdr = -1]. *)
Lemma steep_radiative_gradient :
  T_deriv_rad 1e10 1e33 0.34 1 1.5e7 < (gamma - 1) / gamma * (1.5e7 / 1e18) * (-1) /\
  Rabs (T_deriv_rad 1e10 1e33 0.34 1 1.5e7)
    > Rabs ((gamma - 1) / gamma * (1.5e7 / 1e18) * (-1)).
Proof.
  pose proof PI_RGT_0 as Hpi0. pose proof PI_4 as Hpi4.
  rewrite gamma_ratio. unfold T_deriv_rad.
  set (x := 3 * 1e33 * 0.34 * 1).
  set (y := 4 * PI * 1e10 ^ 2 * (4 * a * c * 1.5e7 ^ 3)).
  assert (Hx : 1e33 <= x) by (unfold x; lra).
  assert (Hy : 0 < y <= 4e40) by (unfold y, a, c; split; lra).
  assert (Hq : 2.5e-8 <= x / y).
  { apply (Rmult_le_reg_r y); [lra|].
    replace (x / y * y) with x by (field; lra). lra. }
  replace (- x / y) with (- (x / y)) by (unfold Rdiv; ring).
  split; [lra|].
  rewrite Rabs_Ropp, (Rabs_pos_eq (x / y)) by lra.
  rewrite (Rabs_left (2 / 5 * (1.5e7 / 1e18) * -1)) by lra. lra.
Qed.

(** C7 on both branches: at [L = 1e33] the radiative gradient is below the
    threshold in value and above it in magnitude, and the threshold is
    returned; at [L = 0] the radiative gradient is returned. *)
Lemma T_deriv_selects_witness :
  T_deriv_rad 1e10 1e33 0.34 1 1.5e7 < (gamma - 1) / gamma * (1.5e7 / 1e18) * (-1) /\
  T_deriv 1e10 1e33 0.34 1 1.5e7 1e18 (-1) = (gamma - 1) / gamma * (1.5e7 / 1e18) * (-1) /\
  T_deriv 1e10 0 0.34 1 1.5e7 1e18 (-1) = T_deriv_rad 1e10 0 0.34 1 1.5e7.
Proof.
  split; [apply steep_radiative_gradient|]. split.
  - apply (proj1 (proj2 (T_deriv_selects 1e10 1e33 0.34 1 1.5e7 1e18 (-1)))).
    apply steep_radiative_gradient.
  - apply (proj2 (proj2 (T_deriv_selects 1e10 0 0.34 1 1.5e7 1e18 (-1)))).
    unfold T_deriv_rad.
    replace (- (3 * 0 * 0.34 * 1) / (4 * PI * 1e10 ^ 2 * (4 * a * c * 1.5e7 ^ 3)))
      with 0 by (unfold Rdiv; ring).
    rewrite Rabs_R0. apply Rabs_pos.
Defined.

(** C8.  For every [rho], every [T > 0] and every [X], [calc_epsilon] is
    [C rho X^2 T^(-2/3) exp (- beta T^(-1/3))], where
    [C = (2^(5/3) sqrt 2 / sqrt 3) Q S0 EG^(1/6) / (mH^2 sqrt mu k^(2/3))]
    with [mu = mH / 2] and [beta = 3 (EG / (4 k))^(1/3)] are positive
    constants. *)
Theorem calc_epsilon_closed_form (rho T X : R) :
  0 < T ->
  calc_epsilon rho T X
  = epsilon_C * rho * X ^ 2 * Rpower T (- (2 / 3))
    * exp (- epsilon_beta * Rpower T (- (1 / 3))) /\
  0 < epsilon_C /\ 0 < epsilon_beta.
Proof.
  intros HT. pose proof k_pos as Hk. pose proof EG_pos as HE.
  pose proof mH_pos as Hm. pose proof Q_pos as HQ. pose proof S0_pos as HS.
  assert (Hs : 0 < sqrt (mH / 2)) by (apply sqrt_lt_R0; lra).
  assert (H3 : 0 < sqrt 3) by (apply sqrt_lt_R0; lra).
  assert (H2 : 0 < sqrt 2) by (apply sqrt_lt_R0; lra).
  split; [|split].
  - unfold calc_epsilon, epsilon_C, epsilon_beta.
    replace 4.0 with 4 by lra. replace (-3.0) with (-3) by lra.
    replace 2.0 with 2 by lra.
    replace (EG / (4 * k * T)) with ((EG / (4 * k)) * / T) by (field; lra).
    rewrite <- (Rpower_mult_distr (EG / (4 * k)) (/ T)).
    2:{ apply Rdiv_lt_0_compat; lra. }
    2:{ by apply Rinv_0_lt_compat. }
    rewrite <- (Rpower_mult_distr k T) by done.
    rewrite !Rpower_Ropp.
    assert (HTi : Rpower (/ T) (1 / 3) = / Rpower T (1 / 3)).
    { rewrite <- Rpower_Ropp. unfold Rpower. f_equal. rewrite ln_Rinv by done. lra. }
    rewrite HTi.
    replace (- 3 * (Rpower (EG / (4 * k)) (1 / 3) * / Rpower T (1 / 3)))
      with (- (3 * Rpower (EG / (4 * k)) (1 / 3)) * / Rpower T (1 / 3)) by lra.
    pose proof (Rpower_pos k (2 / 3)). pose proof (Rpower_pos T (2 / 3)).
    field. repeat split; lra.
  - unfold epsilon_C.
    pose proof (Rpower_pos 2 (5 / 3)). pose proof (Rpower_pos EG (1 / 6)).
    pose proof (Rpower_pos k (2 / 3)).
    assert (0 < mH ^ 2) by nra.
    apply Rdiv_lt_0_compat; [|pos].
    assert (0 < Rpower 2 (5 / 3) * sqrt 2 / sqrt 3).
    { apply Rdiv_lt_0_compat; [pos | done]. }
    pos.
  - unfold epsilon_beta. pose proof (Rpower_pos (EG / (4 * k)) (1 / 3)). lra.
Qed.

(** C8 at [rho = 150], [T = 1.5e7], [X = 0.7]. *)
Lemma calc_epsilon_closed_form_witness :
  calc_epsilon 150 1.5e7 0.7
  = epsilon_C * 150 * 0.7 ^ 2 * Rpower 1.5e7 (- (2 / 3))
    * exp (- epsilon_beta * Rpower 1.5e7 (- (1 / 3))) /\
  0 < epsilon_C /\ 0 < epsilon_beta.
Proof. apply (calc_epsilon_closed_form 150 1.5e7 0.7). lra. Defined.

(** C9.  For [T > 0] and [mbar > 0], [calc_rho P T mbar] is
    [(mbar / (k T)) P]; it is linear in [P], it is a multiple of [1 / T]
    that does not depend on [T], and it is positive when [P] is. *)
Theorem calc_rho_ideal_gas (P T mbar : R) :
  0 < T -> 0 < mbar ->
  calc_rho P T mbar = mbar / (k * T) * P /\
  (forall P1 P2 u v : R,
     calc_rho (u * P1 + v * P2) T mbar
     = u * calc_rho P1 T mbar + v * calc_rho P2 T mbar) /\
  (forall T' : R, 0 < T' -> calc_rho P T' mbar = mbar * P / k * (1 / T')) /\
  (0 < P -> 0 < calc_rho P T mbar).
Proof.
  intros HT Hm. pose proof k_pos as Hk.
  split; [done|]. split; [|split].
  - intros P1 P2 u v. unfold calc_rho. field. lra.
  - intros T' HT'. unfold calc_rho. field. lra.
  - intros HP. by apply calc_rho_pos.
Qed.

(** C9 at the central values of the notebook. *)
Lemma calc_rho_ideal_gas_witness :
  calc_rho 1.0e18 1.5e7 (mean_mass 0.7 0.28)
    = mean_mass 0.7 0.28 / (k * 1.5e7) * 1.0e18 /\
  (forall P1 P2 u v : R,
     calc_rho (u * P1 + v * P2) 1.5e7 (mean_mass 0.7 0.28)
     = u * calc_rho P1 1.5e7 (mean_mass 0.7 0.28)
       + v * calc_rho P2 1.5e7 (mean_mass 0.7 0.28)) /\
  (forall T' : R, 0 < T' ->
     calc_rho 1.0e18 T' (mean_mass 0.7 0.28)
     = mean_mass 0.7 0.28 * 1.0e18 / k * (1 / T')) /\
  (0 < 1.0e18 -> 0 < calc_rho 1.0e18 1.5e7 (mean_mass 0.7 0.28)).
Proof.
  apply (calc_rho_ideal_gas 1.0e18 1.5e7 (mean_mass 0.7 0.28)).
  - lra.
  - rewrite mean_mass_solar. lra.
Defined.

(** C10.  [make_star] takes the mean particle mass to be
    [mbar = 2 mH / (1 + 3 X + 0.5 Y)], which is positive for every valid
    composition ([0 <= X], [0 <= Y], [X + Y <= 1]), and in every call that
    gets past the division the density at the centre of the returned
    profile is [calc_rho P0 T0 mbar] for this [mbar]. *)
Theorem make_star_mean_mass_central_density (T0 P0 X Y : R) :
  mean_mass X Y = 2 * mH / (1 + 3 * X + 0.5 * Y) /\
  (0 <= X -> 0 <= Y -> X + Y <= 1 -> 0 < mean_mass X Y) /\
  (1 + 3 * X + 0.5 * Y <> 0 ->
   exists o : star,
     make_star T0 P0 X Y = Returned o /\
     out_P o !! 0%nat = Some P0 /\ out_T o !! 0%nat = Some T0 /\
     out_rho o !! 0%nat = Some (calc_rho P0 T0 (mean_mass X Y))).
Proof.
  pose proof mH_pos as Hm.
  split; [|split].
  - unfold mean_mass. replace 2.0 with 2 by lra. replace 1.0 with 1 by lra.
    replace 3.0 with 3 by lra. unfold Rdiv. ring.
  - intros HX HY HXY. unfold mean_mass. apply Rdiv_lt_0_compat; lra.
  - intros Hden.
    destruct (make_star_profile T0 P0 X Y Hden) as (i & Hi & Heq & _).
    exists (profile rmax nstep T0 P0 X Y i). split; [done|].
    unfold profile. cbn [out_P out_T out_rho].
    rewrite !list_lookup_fmap, lookup_seq_lt by lia. done.
Qed.

(** C10 at the values of the notebook. *)
Lemma make_star_mean_mass_central_density_witness :
  mean_mass 0.7 0.28 = 2 * mH / (1 + 3 * 0.7 + 0.5 * 0.28) /\
  0 < mean_mass 0.7 0.28 /\
  exists o : star,
    make_star 1.5e7 1.0e18 0.7 0.28 = Returned o /\
    out_P o !! 0%nat = Some 1.0e18 /\ out_T o !! 0%nat = Some 1.5e7 /\
    out_rho o !! 0%nat = Some (calc_rho 1.0e18 1.5e7 (mean_mass 0.7 0.28)).
Proof.
  destruct (make_star_mean_mass_central_density 1.5e7 1.0e18 0.7 0.28)
    as (Hmbar & Hpos & Hrho).
  split; [exact Hmbar|]. split; [apply Hpos; lra | apply Hrho; lra].
Defined.

(** * Further properties of the code *)

(** ** The power density *)

Lemma epsilon_unit_nonneg (T : R) : 0 <= calc_epsilon 1 T 1.
Proof.
  pose proof mH_pos as Hm. pose proof Q_pos as HQ. pose proof S0_pos as HS.
  assert (Hs : 0 < sqrt (mH / 2)) by (apply sqrt_lt_R0; lra).
  assert (H3 : 0 < sqrt 3) by (apply sqrt_lt_R0; lra).
  assert (H2 : 0 < sqrt 2) by (apply sqrt_lt_R0; lra).
  assert (Hm2 : 0 < mH ^ 2) by nra.
  pose proof (Rpower_pos 2.0 (5 / 3)). pose proof (Rpower_pos EG (1 / 6)).
  pose proof (Rpower_pos (k * T) (2 / 3)).
  pose proof (exp_pos (-3.0 * Rpower (EG / (4.0 * k * T)) (1 / 3))).
  unfold calc_epsilon.
  assert (0 < Rpower 2.0 (5 / 3) * sqrt 2 / sqrt 3).
  { apply Rdiv_lt_0_compat; [pos | done]. }
  assert (0 < 1 * 1 ^ 2 / (mH ^ 2 * sqrt (mH / 2))).
  { apply Rdiv_lt_0_compat; [lra | pos]. }
  assert (0 < Rpower EG (1 / 6) / Rpower (k * T) (2 / 3)).
  { by apply Rdiv_lt_0_compat. }
  left. pos.
Qed.

Lemma calc_epsilon_factor (rho T X : R) :
  calc_epsilon rho T X = rho * X ^ 2 * calc_epsilon 1 T 1.
Proof.
  pose proof mH_pos as Hm.
  assert (Hs : 0 < sqrt (mH / 2)) by (apply sqrt_lt_R0; lra).
  unfold calc_epsilon.
  replace (rho * X ^ 2 / (mH ^ 2 * sqrt (mH / 2)))
    with (rho * X ^ 2 * (1 * 1 ^ 2 / (mH ^ 2 * sqrt (mH / 2)))) by (field; lra).
  ring.
Qed.

(** The power density is never of the sign opposite to the density, and it
    vanishes where there is no matter or no hydrogen. *)
Theorem calc_epsilon_sign (rho T X : R) :
  0 < T ->
  (0 <= rho -> 0 <= calc_epsilon rho T X) /\
  (rho <= 0 -> calc_epsilon rho T X <= 0) /\
  (rho = 0 \/ X = 0 -> calc_epsilon rho T X = 0).
Proof.
  intros _. pose proof (epsilon_unit_nonneg T) as He.
  rewrite calc_epsilon_factor.
  assert (HX : 0 <= X ^ 2) by nra.
  split; [|split].
  - intros Hr. nonneg.
  - intros Hr.
    assert (0 <= - rho * X ^ 2 * calc_epsilon 1 T 1) by nonneg. lra.
  - intros [-> | ->]; ring.
Qed.

(** The power density is linear in the density and quadratic in the
    hydrogen fraction. *)
Theorem calc_epsilon_scaling (rho T X s t : R) :
  0 < T ->
  calc_epsilon (s * rho) T (t * X) = s * t ^ 2 * calc_epsilon rho T X.
Proof.
  intros _. rewrite (calc_epsilon_factor (s * rho)), (calc_epsilon_factor rho).
  ring.
Qed.

(** [u^2 exp (- b u)] falls with [u] beyond its peak at [u = 2 / b]. *)
Lemma gamow_factor_decreasing (b u1 u2 : R) :
  0 < u2 -> 2 <= b * u2 -> u2 < u1 ->
  u1 ^ 2 * exp (- b * u1) < u2 ^ 2 * exp (- b * u2).
Proof.
  intros Hu2 Hb Hu.
  set (x := (u1 - u2) / u2).
  assert (Hx : 0 < x) by (apply Rdiv_lt_0_compat; lra).
  assert (Hu1 : u1 = u2 * (1 + x)) by (unfold x; field; lra).
  assert (Hexp : 1 + x < exp x) by (apply exp_ineq1; lra).
  assert (Hsq : (1 + x) ^ 2 < exp (2 * x)).
  { replace (2 * x) with (x + x) by lra. rewrite exp_plus. nra. }
  assert (Hle : exp (2 * x) <= exp (b * (u1 - u2))).
  { destruct (Rle_lt_or_eq_dec 2 (b * u2) Hb) as [Hlt| Heq].
    - left. apply exp_increasing. rewrite Hu1.
      replace (b * (u2 * (1 + x) - u2)) with (b * u2 * x) by ring. nra.
    - right. f_equal. rewrite Hu1.
      replace (b * (u2 * (1 + x) - u2)) with (b * u2 * x) by ring.
      rewrite <- Heq. ring. }
  assert (He2 : 0 < exp (- b * u1)) by apply exp_pos.
  assert (Hsplit : exp (- b * u2) = exp (b * (u1 - u2)) * exp (- b * u1)).
  { rewrite <- exp_plus. f_equal. ring. }
  rewrite Hsplit, Hu1 at 1.
  replace ((u2 * (1 + x)) ^ 2) with (u2 ^ 2 * (1 + x) ^ 2) by ring.
  rewrite !Rmult_assoc. apply Rmult_lt_compat_l; [nra|].
  apply Rmult_lt_compat_r; [done | lra].
Qed.

Lemma calc_epsilon_gamow (rho T X : R) :
  0 < T ->
  calc_epsilon rho T X
  = epsilon_C * rho * X ^ 2
    * (Rpower T (- (1 / 3)) ^ 2 * exp (- epsilon_beta * Rpower T (- (1 / 3)))).
Proof.
  intros HT. pose proof k_pos as Hk. pose proof EG_pos as HE.
  pose proof mH_pos as Hm.
  assert (Hs : 0 < sqrt (mH / 2)) by (apply sqrt_lt_R0; lra).
  assert (H3 : 0 < sqrt 3) by (apply sqrt_lt_R0; lra).
  assert (Hsq : Rpower T (- (1 / 3)) ^ 2 = / Rpower T (2 / 3)).
  { rewrite <- (Rpower_pow 2) by apply Rpower_pos.
    rewrite Rpower_mult. rewrite <- Rpower_Ropp. f_equal. simpl. lra. }
  rewrite Hsq.
  unfold calc_epsilon, epsilon_C, epsilon_beta.
  replace 4.0 with 4 by lra. replace (-3.0) with (-3) by lra.
  replace 2.0 with 2 by lra.
  replace (EG / (4 * k * T)) with ((EG / (4 * k)) * / T) by (field; lra).
  rewrite <- (Rpower_mult_distr (EG / (4 * k)) (/ T)).
  2:{ apply Rdiv_lt_0_compat; lra. }
  2:{ by apply Rinv_0_lt_compat. }
  rewrite <- (Rpower_mult_distr k T) by done.
  rewrite !Rpower_Ropp.
  assert (HTi : Rpower (/ T) (1 / 3) = / Rpower T (1 / 3)).
  { rewrite <- Rpower_Ropp. unfold Rpower. f_equal. rewrite ln_Rinv by done. lra. }
  rewrite HTi.
  replace (- 3 * (Rpower (EG / (4 * k)) (1 / 3) * / Rpower T (1 / 3)))
    with (- (3 * Rpower (EG / (4 * k)) (1 / 3)) * / Rpower T (1 / 3)) by lra.
  pose proof (Rpower_pos k (2 / 3)). pose proof (Rpower_pos T (2 / 3)).
  field. repeat split; lra.
Qed.

Lemma epsilon_C_pos : 0 < epsilon_C.
Proof.
  pose proof mH_pos as Hm. pose proof Q_pos as HQ. pose proof S0_pos as HS.
  assert (Hs : 0 < sqrt (mH / 2)) by (apply sqrt_lt_R0; lra).
  assert (H3 : 0 < sqrt 3) by (apply sqrt_lt_R0; lra).
  assert (H2 : 0 < sqrt 2) by (apply sqrt_lt_R0; lra).
  unfold epsilon_C.
  pose proof (Rpower_pos 2 (5 / 3)). pose proof (Rpower_pos EG (1 / 6)).
  pose proof (Rpower_pos k (2 / 3)).
  assert (0 < mH ^ 2) by nra.
  apply Rdiv_lt_0_compat; [|pos].
  assert (0 < Rpower 2 (5 / 3) * sqrt 2 / sqrt 3).
  { apply Rdiv_lt_0_compat; [pos | done]. }
  pos.
Qed.

Lemma cube_root_8_27 : Rpower (8 / 27) (1 / 3) = 2 / 3.
Proof.
  replace (8 / 27) with ((2 / 3) ^ 3) by lra.
  rewrite <- (Rpower_pow 3) by lra.
  rewrite Rpower_mult.
  replace (INR 3 * (1 / 3)) with 1 by (simpl; lra).
  apply Rpower_1. lra.
Qed.

(** Below [27 EG / (32 k)] the exponent of the Gamow factor is at least 2. *)
Lemma gamow_exponent_below_peak (T : R) :
  0 < T -> T <= 27 * EG / (32 * k) -> 2 <= epsilon_beta * Rpower T (- (1 / 3)).
Proof.
  intros HT Hpeak. pose proof k_pos as Hk. pose proof EG_pos as HE.
  unfold epsilon_beta.
  assert (Hq : 0 < EG / (4 * k)) by (apply Rdiv_lt_0_compat; lra).
  assert (HTi : Rpower T (- (1 / 3)) = Rpower (/ T) (1 / 3)).
  { unfold Rpower. f_equal. rewrite ln_Rinv by done. lra. }
  rewrite HTi, Rmult_assoc.
  rewrite Rpower_mult_distr by (done || by apply Rinv_0_lt_compat).
  assert (Hge : 8 / 27 <= EG / (4 * k) * / T).
  { apply (Rmult_le_reg_r T); [done|].
    replace (EG / (4 * k) * / T * T) with (EG / (4 * k)) by (field; lra).
    apply (Rmult_le_reg_r (32 * k)); [lra|].
    replace (EG / (4 * k) * (32 * k)) with (8 * EG) by (field; lra).
    assert (T * (32 * k) <= 27 * EG).
    { apply (Rmult_le_compat_r (32 * k)) in Hpeak; [|lra].
      replace (27 * EG / (32 * k) * (32 * k)) with (27 * EG) in Hpeak by (field; lra).
      done. }
    lra. }
  pose proof (Rle_Rpower_l (8 / 27) (EG / (4 * k) * / T) (1 / 3) ltac:(lra) ltac:(lra))
    as Hp.
  rewrite cube_root_8_27 in Hp. lra.
Qed.

(** A hotter gas has a smaller [T^(-1/3)]. *)
Lemma inverse_cube_root_decreasing (T1 T2 : R) :
  0 < T1 -> T1 < T2 -> Rpower T2 (- (1 / 3)) < Rpower T1 (- (1 / 3)).
Proof.
  intros H1 H12. rewrite !Rpower_Ropp.
  pose proof (Rpower_pos T1 (1 / 3)). pose proof (Rpower_pos T2 (1 / 3)).
  apply Rinv_lt_contravar; [nra|].
  apply Rlt_Rpower_l; lra.
Qed.

(** Up to [27 EG / (32 k)], about 4.8e9 K, the power density never falls
    when the temperature rises. *)
Theorem calc_epsilon_nondecreasing_in_T (rho X T1 T2 : R) :
  0 <= rho -> 0 < T1 -> T1 <= T2 -> T2 <= 27 * EG / (32 * k) ->
  calc_epsilon rho T1 X <= calc_epsilon rho T2 X.
Proof.
  intros Hrho H1 H12 Hpeak.
  destruct (Rle_lt_or_eq_dec T1 T2 H12) as [Hlt| ->]; [|lra].
  rewrite !calc_epsilon_gamow by lra.
  pose proof epsilon_C_pos as HC.
  assert (HX2 : 0 <= X ^ 2) by nra.
  apply Rmult_le_compat_l; [nonneg|].
  left. apply gamow_factor_decreasing.
  - apply Rpower_pos.
  - apply gamow_exponent_below_peak; lra.
  - by apply inverse_cube_root_decreasing.
Qed.

Lemma gamow_peak_value : 4.8e9 <= 27 * EG / (32 * k).
Proof. unfold EG, k. lra. Qed.

(** At the density and composition of the solar centre, between 1e7 K and
    1.5e7 K. *)
Lemma calc_epsilon_nondecreasing_in_T_witness :
  calc_epsilon 150 1.0e7 0.7 <= calc_epsilon 150 1.5e7 0.7.
Proof.
  apply (calc_epsilon_nondecreasing_in_T 150 0.7 1.0e7 1.5e7); try lra.
  pose proof gamow_peak_value. lra.
Defined.

(** At the density, temperature and hydrogen fraction of the solar centre. *)
Lemma calc_epsilon_sign_witness :
  (0 <= 150 -> 0 <= calc_epsilon 150 1.5e7 0.7) /\
  (150 <= 0 -> calc_epsilon 150 1.5e7 0.7 <= 0) /\
  (150 = 0 \/ 0.7 = 0 -> calc_epsilon 150 1.5e7 0.7 = 0).
Proof. apply (calc_epsilon_sign 150 1.5e7 0.7). lra. Defined.

(** Twice the density and half the hydrogen: half the power density. *)
Lemma calc_epsilon_scaling_witness :
  calc_epsilon (2 * 150) 1.5e7 (0.5 * 0.7) = 2 * 0.5 ^ 2 * calc_epsilon 150 1.5e7 0.7.
Proof. apply (calc_epsilon_scaling 150 1.5e7 0.7 2 0.5). lra. Defined.

(** ** The gradient selector *)

(** The gradient that [T_deriv] returns is one of the two it compares, and
    its magnitude is the smaller of their magnitudes: the radiative gradient
    is capped at the convective threshold. *)
Theorem T_deriv_capped (r L kappa rho T P dPdr : R) :
  (T_deriv r L kappa rho T P dPdr = T_deriv_rad r L kappa rho T \/
   T_deriv r L kappa rho T P dPdr = (gamma - 1) / gamma * (T / P) * dPdr) /\
  Rabs (T_deriv r L kappa rho T P dPdr)
  = Rmin (Rabs (T_deriv_rad r L kappa rho T))
         (Rabs ((gamma - 1) / gamma * (T / P) * dPdr)).
Proof.
  unfold T_deriv. destruct (Rgt_dec _ _) as [Hgt|Hle].
  - split; [by right|]. rewrite Rmin_right; [done | lra].
  - split; [by left|]. rewrite Rmin_left; [done | lra].
Qed.

(** Where both gradients point inward (neither is positive), [T_deriv]
    returns the shallower one, the larger of the two values. *)
Theorem T_deriv_shallower (r L kappa rho T P dPdr : R) :
  T_deriv_rad r L kappa rho T <= 0 ->
  (gamma - 1) / gamma * (T / P) * dPdr <= 0 ->
  T_deriv r L kappa rho T P dPdr
  = Rmax (T_deriv_rad r L kappa rho T) ((gamma - 1) / gamma * (T / P) * dPdr).
Proof.
  intros Hrad Hconv. unfold T_deriv.
  rewrite (Rabs_left1 _ Hrad), (Rabs_left1 _ Hconv).
  destruct (Rgt_dec _ _) as [Hgt|Hle].
  - rewrite Rmax_right; [done | lra].
  - rewrite Rmax_left; [done | lra].
Qed.

(** At a radiative gradient steeper than the threshold, both inward. *)
Lemma T_deriv_shallower_witness :
  T_deriv 1e10 1e33 0.34 1 1.5e7 1e18 (-1)
  = Rmax (T_deriv_rad 1e10 1e33 0.34 1 1.5e7)
         ((gamma - 1) / gamma * (1.5e7 / 1e18) * (-1)).
Proof.
  pose proof steep_radiative_gradient as [Hlt _].
  assert (Hconv : (gamma - 1) / gamma * (1.5e7 / 1e18) * (-1) <= 0).
  { rewrite gamma_ratio. lra. }
  apply (T_deriv_shallower 1e10 1e33 0.34 1 1.5e7 1e18 (-1)); lra.
Defined.

Lemma T_deriv_nonpos (r L kappa rho T P dPdr : R) :
  T_deriv_rad r L kappa rho T <= 0 ->
  (gamma - 1) / gamma * (T / P) * dPdr <= 0 ->
  T_deriv r L kappa rho T P dPdr <= 0.
Proof.
  intros Hrad Hconv. unfold T_deriv. by destruct (Rgt_dec _ _).
Qed.

(** ** The shape of what [make_star] returns *)

Lemma delta_r_make_star_pos : 0 < delta_r rmax nstep.
Proof. rewrite delta_r_make_star. lra. Qed.

(** Every call that gets past the division returns eight arrays of one
    common length, between 2 and [nstep], and reports their last radius,
    mass and luminosity, however the loop ended. *)
Theorem make_star_shape (T0 P0 X Y : R) :
  1 + 3 * X + 0.5 * Y <> 0 ->
  exists (o : star) (n : nat),
    make_star T0 P0 X Y = Returned o /\
    (2 <= n <= nstep)%nat /\
    (length (out_r o) = n /\ length (out_M o) = n /\ length (out_P o) = n /\
     length (out_T o) = n /\ length (out_L o) = n /\ length (out_rho o) = n /\
     length (out_kappa o) = n /\ length (out_epsilon o) = n) /\
    reported_as_star o.
Proof.
  intros Hden.
  destruct (make_star_profile T0 P0 X Y Hden) as (i & Hi & Heq & _).
  exists (profile rmax nstep T0 P0 X Y i), (S i).
  split; [done|]. split; [lia|].
  pose proof (profile_lengths rmax nstep T0 P0 X Y i ltac:(lia)) as Hlen.
  split; [done|].
  unfold reported_as_star. destruct Hlen as [-> _].
  replace (S i - 1)%nat with i by lia. apply profile_report. lia.
Qed.

(** At the values of the notebook. *)
Lemma make_star_shape_witness :
  exists (o : star) (n : nat),
    make_star 1.5e7 1.0e18 0.7 0.28 = Returned o /\
    (2 <= n <= nstep)%nat /\
    (length (out_r o) = n /\ length (out_M o) = n /\ length (out_P o) = n /\
     length (out_T o) = n /\ length (out_L o) = n /\ length (out_rho o) = n /\
     length (out_kappa o) = n /\ length (out_epsilon o) = n) /\
    reported_as_star o.
Proof. apply (make_star_shape 1.5e7 1.0e18 0.7 0.28). lra. Defined.

(** The radii do not depend on the star: the returned radius of index [j]
    is [(j + 1/2) dr] with [dr = 1e12 / 99999], so that no radius is zero,
    and the reported radius is [(n - 1/2) dr] for a profile of [n] entries,
    between [3 dr / 2] and [rmax + dr / 2]. *)
Theorem make_star_radii (T0 P0 X Y : R) :
  1 + 3 * X + 0.5 * Y <> 0 ->
  exists o : star,
    make_star T0 P0 X Y = Returned o /\
    (forall j : nat, (j < length (out_r o))%nat ->
       out_r o !! j = Some ((INR j + 1 / 2) * (1.0e12 / 99999))) /\
    (forall (j : nat) (x : R), out_r o !! j = Some x -> 0 < x) /\
    r_star o = (INR (length (out_r o)) - 1 / 2) * (1.0e12 / 99999) /\
    3 / 2 * (1.0e12 / 99999) <= r_star o <= 1.0e12 + 1.0e12 / 99999 / 2.
Proof.
  intros Hden. pose proof nstep_ge as Hn.
  destruct (make_star_profile T0 P0 X Y Hden) as (i & Hi & Heq & _).
  exists (profile rmax nstep T0 P0 X Y i). split; [done|].
  pose proof (profile_lengths rmax nstep T0 P0 X Y i ltac:(lia)) as [Hlen _].
  assert (Hr : forall j : nat, (j < S i)%nat ->
            out_r (profile rmax nstep T0 P0 X Y i) !! j
            = Some ((INR j + 1 / 2) * (1.0e12 / 99999))).
  { intros j Hj. rewrite profile_r by lia. f_equal.
    rewrite get_grid by lia. rewrite delta_r_make_star. lra. }
  rewrite Hlen. split; [done|]. split; [|split].
  - intros j x Hx.
    assert (Hj : (j < S i)%nat).
    { rewrite <- Hlen. by apply lookup_lt_Some in Hx. }
    rewrite Hr in Hx by done. injection Hx as <-.
    pose proof (pos_INR j). nra.
  - cbn [r_star profile]. rewrite get_grid by lia.
    rewrite delta_r_make_star, S_INR. lra.
  - cbn [r_star profile]. rewrite get_grid by lia.
    rewrite delta_r_make_star.
    assert (H1 : 1 <= INR i) by (change 1 with (INR 1); apply le_INR; lia).
    assert (H2 : INR i <= 99999).
    { rewrite <- INR_nstep_pred. apply le_INR. lia. }
    split; nra.
Qed.

(** At the values of the notebook. *)
Lemma make_star_radii_witness :
  exists o : star,
    make_star 1.5e7 1.0e18 0.7 0.28 = Returned o /\
    (forall j : nat, (j < length (out_r o))%nat ->
       out_r o !! j = Some ((INR j + 1 / 2) * (1.0e12 / 99999))) /\
    (forall (j : nat) (x : R), out_r o !! j = Some x -> 0 < x) /\
    r_star o = (INR (length (out_r o)) - 1 / 2) * (1.0e12 / 99999) /\
    3 / 2 * (1.0e12 / 99999) <= r_star o <= 1.0e12 + 1.0e12 / 99999 / 2.
Proof. apply (make_star_radii 1.5e7 1.0e18 0.7 0.28). lra. Defined.

(** ** The profile of a star with positive central values *)

Lemma a_pos : 0 < a. Proof. unfold a; lra. Qed.
Lemma c_pos : 0 < c. Proof. unfold c; lra. Qed.
Lemma sigmaT_pos : 0 < sigmaT. Proof. unfold sigmaT; lra. Qed.

Lemma mean_mass_pos (X Y : R) : 0 <= X -> 0 <= Y -> 0 < mean_mass X Y.
Proof.
  intros HX HY. pose proof mH_pos. unfold mean_mass.
  apply Rdiv_lt_0_compat; lra.
Qed.

Lemma calc_kappa_nonneg (X : R) : 0 <= X -> 0 <= calc_kappa X.
Proof.
  intros HX. pose proof sigmaT_pos. pose proof mH_pos. unfold calc_kappa.
  apply Rmult_le_pos; [|lra]. apply div_nonneg; lra.
Qed.

Lemma calc_epsilon_nonneg (rho T X : R) : 0 <= rho -> 0 <= calc_epsilon rho T X.
Proof.
  intros Hr. rewrite calc_epsilon_factor. pose proof (epsilon_unit_nonneg T).
  assert (0 <= X ^ 2) by nra. nonneg.
Qed.

Lemma T_deriv_rad_nonpos (r L kappa rho T : R) :
  0 < r -> 0 <= L -> 0 <= kappa -> 0 <= rho -> 0 < T ->
  T_deriv_rad r L kappa rho T <= 0.
Proof.
  intros Hr HL Hk Hrho HT. pose proof a_pos. pose proof c_pos.
  pose proof PI_RGT_0. unfold T_deriv_rad.
  assert (Hnum : 0 <= 3 * L * kappa * rho) by nonneg.
  assert (Hr2 : 0 < r ^ 2) by nra.
  assert (HT3 : 0 < T ^ 3) by (apply pow_lt; lra).
  assert (Hden : 0 < 4 * PI * r ^ 2 * (4 * a * c * T ^ 3)) by pos.
  pose proof (div_nonneg _ _ Hnum Hden) as Hq.
  replace (- (3 * L * kappa * rho) / (4 * PI * r ^ 2 * (4 * a * c * T ^ 3)))
    with (- ((3 * L * kappa * rho) / (4 * PI * r ^ 2 * (4 * a * c * T ^ 3))))
    by (unfold Rdiv; ring).
  lra.
Qed.

Lemma P_deriv_nonpos (r M rho : R) : 0 < r -> 0 <= M -> 0 <= rho -> P_deriv r M rho <= 0.
Proof.
  intros Hr HM Hrho. pose proof G_pos. unfold P_deriv.
  assert (Hnum : 0 <= G * M * rho) by nonneg.
  assert (Hr2 : 0 < r ^ 2) by nra.
  pose proof (div_nonneg _ _ Hnum Hr2) as Hq.
  replace (- (G * M * rho) / r ^ 2) with (- ((G * M * rho) / r ^ 2))
    by (unfold Rdiv; ring).
  lra.
Qed.

(** One step from a shell with positive pressure, temperature and density
    that encloses no negative mass and emits no negative light. *)
Lemma advance_monotone (mbar X dr r : R) (s : shell) :
  0 < dr -> 0 < r -> 0 <= X ->
  0 < sh_P s -> 0 < sh_T s -> 0 < sh_rho s -> 0 <= sh_M s -> 0 <= sh_L s ->
  sh_kappa s = calc_kappa X ->
  sh_epsilon s = calc_epsilon (sh_rho s) (sh_T s) X ->
  sh_M s < sh_M (advance mbar X dr r s) /\
  sh_P (advance mbar X dr r s) <= sh_P s /\
  sh_T (advance mbar X dr r s) <= sh_T s /\
  sh_L s <= sh_L (advance mbar X dr r s).
Proof.
  intros Hdr Hr HX HP HT Hrho HM HL Hk He.
  unfold advance. cbn [sh_M sh_P sh_T sh_L].
  pose proof PI_RGT_0 as Hpi. assert (Hr2 : 0 < r ^ 2) by nra.
  pose proof (P_deriv_nonpos r (sh_M s) (sh_rho s) Hr HM ltac:(lra)) as HdP.
  split; [|split; [|split]].
  - unfold M_deriv. replace 4.0 with 4 by lra.
    assert (0 < 4 * PI * r ^ 2 * sh_rho s * dr) by pos. lra.
  - nra.
  - assert (HdT : T_deriv r (sh_L s) (sh_kappa s) (sh_rho s) (sh_T s) (sh_P s)
                    (P_deriv r (sh_M s) (sh_rho s)) <= 0).
    { apply T_deriv_nonpos.
      - apply T_deriv_rad_nonpos; try lra. rewrite Hk. by apply calc_kappa_nonneg.
      - rewrite gamma_ratio.
        assert (0 < sh_T s / sh_P s) by (by apply Rdiv_lt_0_compat).
        nra. }
    nra.
  - unfold L_deriv. rewrite He.
    pose proof (calc_epsilon_nonneg (sh_rho s) (sh_T s) X ltac:(lra)).
    assert (0 <= 4 * PI * r ^ 2 * sh_rho s * calc_epsilon (sh_rho s) (sh_T s) X * dr)
      by nonneg.
    lra.
Qed.

Section Physical.
Variables (T0 P0 X Y : R) (i : nat).
Hypothesis T0_pos : 0 < T0.
Hypothesis P0_pos : 0 < P0.
Hypothesis X_nonneg : 0 <= X.
Hypothesis Y_nonneg : 0 <= Y.
Hypothesis i_lt : (i < nstep)%nat.
Hypothesis clear_before :
  forall j : nat, (1 <= j < i)%nat -> ~ at_surface (shell_of T0 P0 X Y j).

Let sh := shell_of T0 P0 X Y.

Lemma shell_of_S (j : nat) :
  sh (S j)
  = advance (mean_mass X Y) X (delta_r rmax nstep) (get (grid rmax nstep) j) (sh j).
Proof. done. Qed.

Lemma shell_derived (j : nat) :
  sh_kappa (sh j) = calc_kappa X /\
  sh_epsilon (sh j) = calc_epsilon (sh_rho (sh j)) (sh_T (sh j)) X.
Proof. by destruct j. Qed.

Lemma grid_radius_pos (j : nat) : (j < nstep)%nat -> 0 < get (grid rmax nstep) j.
Proof.
  intros Hj. pose proof nstep_ge. rewrite get_grid by lia.
  pose proof delta_r_make_star_pos. pose proof (pos_INR j). nra.
Qed.

Lemma before_last_positive (j : nat) :
  (j < i)%nat -> 0 < sh_P (sh j) /\ 0 < sh_T (sh j) /\ 0 < sh_rho (sh j).
Proof.
  intros Hj. destruct j as [|j].
  - cbn. repeat split; [done | done |].
    apply calc_rho_pos; [done | done | by apply mean_mass_pos].
  - apply not_at_surface. apply clear_before. lia.
Qed.

Lemma mass_light_nonneg (j : nat) :
  (j <= i)%nat -> 0 <= sh_M (sh j) /\ 0 <= sh_L (sh j).
Proof.
  induction j as [|j IH]; intros Hj.
  - cbn. replace 0.0 with 0 by lra. lra.
  - destruct (IH ltac:(lia)) as [HM HL].
    destruct (before_last_positive j ltac:(lia)) as (HP & HT & Hrho).
    destruct (shell_derived j) as [Hk He].
    rewrite shell_of_S.
    pose proof (advance_monotone (mean_mass X Y) X (delta_r rmax nstep)
                  (get (grid rmax nstep) j) (sh j) delta_r_make_star_pos
                  (grid_radius_pos j ltac:(lia)) X_nonneg HP HT Hrho HM HL Hk He)
      as (H1 & _ & _ & H4).
    lra.
Qed.

Lemma step_monotone (j : nat) :
  (j < i)%nat ->
  sh_M (sh j) < sh_M (sh (S j)) /\ sh_P (sh (S j)) <= sh_P (sh j) /\
  sh_T (sh (S j)) <= sh_T (sh j) /\ sh_L (sh j) <= sh_L (sh (S j)).
Proof.
  intros Hj.
  destruct (mass_light_nonneg j ltac:(lia)) as [HM HL].
  destruct (before_last_positive j Hj) as (HP & HT & Hrho).
  destruct (shell_derived j) as [Hk He].
  rewrite shell_of_S.
  apply advance_monotone; try done.
  - apply delta_r_make_star_pos.
  - apply grid_radius_pos. lia.
Qed.

Lemma below_centre (j : nat) :
  (j <= i)%nat -> sh_P (sh j) <= P0 /\ sh_T (sh j) <= T0.
Proof.
  induction j as [|j IH]; intros Hj.
  - cbn. lra.
  - destruct (IH ltac:(lia)) as [HP HT].
    destruct (step_monotone j ltac:(lia)) as (_ & H2 & H3 & _). lra.
Qed.
End Physical.

Lemma composition_denominator (X Y : R) : 0 <= X -> 0 <= Y -> 1 + 3 * X + 0.5 * Y <> 0.
Proof. intros HX HY. lra. Qed.

Lemma nstep_ge_3 : (3 <= nstep)%nat.
Proof. unfold nstep. lia. Qed.

(** With positive central pressure and temperature, the enclosed mass
    grows from every returned entry to the next, the surface entry
    included, and the reported mass of the star is positive. *)
Theorem make_star_mass_increasing (T0 P0 X Y : R) :
  0 < T0 -> 0 < P0 -> 0 <= X -> 0 <= Y ->
  exists o : star,
    make_star T0 P0 X Y = Returned o /\
    (forall (j : nat) (p s : shell),
       entry o j = Some p -> entry o (S j) = Some s -> sh_M p < sh_M s) /\
    out_M o !! 0%nat = Some 0 /\
    0 < M_star o.
Proof.
  intros HT0 HP0 HX HY.
  destruct (make_star_profile T0 P0 X Y (composition_denominator X Y HX HY))
    as (i & Hi & Heq & Hb & _).
  exists (profile rmax nstep T0 P0 X Y i). split; [done|].
  split; [|split].
  - intros j p s Hp Hs.
    apply entry_profile_Some in Hp as [_ ->].
    apply entry_profile_Some in Hs as [Hj ->].
    apply (step_monotone T0 P0 X Y i); (done || lia).
  - unfold profile. cbn [out_M].
    rewrite list_lookup_fmap, lookup_seq_lt by lia. cbn.
    f_equal. lra.
  - cbn [M_star profile]. destruct i as [|i]; [lia|].
    pose proof (step_monotone T0 P0 X Y (S i) HT0 HP0 HX HY ltac:(lia) Hb i ltac:(lia))
      as (HM & _).
    pose proof (mass_light_nonneg T0 P0 X Y (S i) HT0 HP0 HX HY ltac:(lia) Hb i ltac:(lia))
      as (HM0 & _).
    unfold shell_of in *. lra.
Qed.

(** At the values of the notebook. *)
Lemma make_star_mass_increasing_witness :
  exists o : star,
    make_star 1.5e7 1.0e18 0.7 0.28 = Returned o /\
    (forall (j : nat) (p s : shell),
       entry o j = Some p -> entry o (S j) = Some s -> sh_M p < sh_M s) /\
    out_M o !! 0%nat = Some 0 /\
    0 < M_star o.
Proof. apply (make_star_mass_increasing 1.5e7 1.0e18 0.7 0.28); lra. Defined.

(** With positive central pressure and temperature, pressure and
    temperature never rise and the luminosity never falls from one returned
    entry to the next; no entry exceeds the central pressure or temperature,
    and no luminosity is negative. *)
Theorem make_star_outward_decline (T0 P0 X Y : R) :
  0 < T0 -> 0 < P0 -> 0 <= X -> 0 <= Y ->
  exists o : star,
    make_star T0 P0 X Y = Returned o /\
    (forall (j : nat) (p s : shell),
       entry o j = Some p -> entry o (S j) = Some s ->
       sh_P s <= sh_P p /\ sh_T s <= sh_T p /\ sh_L p <= sh_L s) /\
    (forall (j : nat) (s : shell),
       entry o j = Some s -> sh_P s <= P0 /\ sh_T s <= T0 /\ 0 <= sh_L s) /\
    0 <= L_star o.
Proof.
  intros HT0 HP0 HX HY.
  destruct (make_star_profile T0 P0 X Y (composition_denominator X Y HX HY))
    as (i & Hi & Heq & Hb & _).
  exists (profile rmax nstep T0 P0 X Y i). split; [done|].
  split; [|split].
  - intros j p s Hp Hs.
    apply entry_profile_Some in Hp as [_ ->].
    apply entry_profile_Some in Hs as [Hj ->].
    pose proof (step_monotone T0 P0 X Y i HT0 HP0 HX HY ltac:(lia) Hb j ltac:(lia))
      as (_ & H2 & H3 & H4).
    done.
  - intros j s Hs. apply entry_profile_Some in Hs as [Hj ->].
    pose proof (below_centre T0 P0 X Y i HT0 HP0 HX HY ltac:(lia) Hb j Hj) as [H1 H2].
    pose proof (mass_light_nonneg T0 P0 X Y i HT0 HP0 HX HY ltac:(lia) Hb j Hj) as [_ H3].
    done.
  - cbn [L_star profile].
    by pose proof (mass_light_nonneg T0 P0 X Y i HT0 HP0 HX HY ltac:(lia) Hb i ltac:(lia))
      as [_ H3].
Qed.

(** At the values of the notebook. *)
Lemma make_star_outward_decline_witness :
  exists o : star,
    make_star 1.5e7 1.0e18 0.7 0.28 = Returned o /\
    (forall (j : nat) (p s : shell),
       entry o j = Some p -> entry o (S j) = Some s ->
       sh_P s <= sh_P p /\ sh_T s <= sh_T p /\ sh_L p <= sh_L s) /\
    (forall (j : nat) (s : shell),
       entry o j = Some s -> sh_P s <= 1.0e18 /\ sh_T s <= 1.5e7 /\ 0 <= sh_L s) /\
    0 <= L_star o.
Proof. apply (make_star_outward_decline 1.5e7 1.0e18 0.7 0.28); lra. Defined.

(** The centre encloses no mass and emits no light, so the first step
    changes neither pressure nor temperature nor density: with positive
    central values the surface test cannot hold at index 1 and the returned
    profile has at least three entries. *)
Theorem make_star_first_step (T0 P0 X Y : R) :
  0 < T0 -> 0 < P0 -> 0 <= X -> 0 <= Y ->
  exists o : star,
    make_star T0 P0 X Y = Returned o /\
    (3 <= length (out_P o))%nat /\
    out_P o !! 1%nat = Some P0 /\
    out_T o !! 1%nat = Some T0 /\
    out_rho o !! 1%nat = Some (calc_rho P0 T0 (mean_mass X Y)).
Proof.
  intros HT0 HP0 HX HY.
  destruct (make_star_profile T0 P0 X Y (composition_denominator X Y HX HY))
    as (i & Hi & Heq & Hb & Hlast).
  pose proof (first_step rmax nstep T0 P0 X Y nstep_ge_3) as (_ & HP & HT & Hrho).
  pose proof nstep_ge_3 as Hn.
  assert (Hi2 : (2 <= i)%nat).
  { destruct (decide (i = 1%nat)) as [->|]; [|lia]. exfalso.
    destruct Hlast as [Hs|Hs]; [|lia].
    revert Hs. apply not_at_surface. unfold shell_of. rewrite HP, HT, Hrho.
    repeat split; [done | done |].
    apply calc_rho_pos; [done | done | by apply mean_mass_pos]. }
  exists (profile rmax nstep T0 P0 X Y i). split; [done|].
  pose proof (profile_lengths rmax nstep T0 P0 X Y i ltac:(lia)) as (_ & _ & Hlen & _).
  split; [lia|].
  unfold profile. cbn [out_P out_T out_rho].
  rewrite !list_lookup_fmap, lookup_seq_lt by lia. cbn [fmap option_fmap option_map].
  change (0 + 1)%nat with 1%nat.
  by rewrite HP, HT, Hrho.
Qed.

(** At the values of the notebook. *)
Lemma make_star_first_step_witness :
  exists o : star,
    make_star 1.5e7 1.0e18 0.7 0.28 = Returned o /\
    (3 <= length (out_P o))%nat /\
    out_P o !! 1%nat = Some 1.0e18 /\
    out_T o !! 1%nat = Some 1.5e7 /\
    out_rho o !! 1%nat = Some (calc_rho 1.0e18 1.5e7 (mean_mass 0.7 0.28)).
Proof. apply (make_star_first_step 1.5e7 1.0e18 0.7 0.28); lra. Defined.

(** A star whose central density [rho0] satisfies
    [4 pi G (2 rho0)^2 rmax^2 <= 5/12 P0] is too dilute for the grid: the
    loop runs through all its steps, all [nstep] entries are returned, and
    everywhere on the grid the pressure stays above [P0 / 2], the
    temperature within [T0 / 2] of [T0], and the density below [2 rho0]. *)
Theorem make_star_dilute (T0 P0 X Y : R) :
  0 < T0 -> 0 < P0 -> 0 <= X -> 0 <= Y ->
  4 * PI * G * (2 * calc_rho P0 T0 (mean_mass X Y)) ^ 2 * rmax ^ 2 <= 5 / 12 * P0 ->
  grid_exhausted T0 P0 X Y /\
  exists o : star,
    make_star T0 P0 X Y = Returned o /\
    length (out_P o) = nstep /\
    forall (j : nat) (s : shell),
      entry o j = Some s ->
      P0 / 2 <= sh_P s <= P0 /\
      T0 / 2 <= sh_T s <= 3 / 2 * T0 /\
      0 < sh_rho s <= 2 * calc_rho P0 T0 (mean_mass X Y).
Proof.
  intros HT0 HP0 HX HY Hdil.
  pose proof nstep_ge as Hn. pose proof rmax_pos as Hr.
  pose proof (mean_mass_pos X Y HX HY) as Hm.
  assert (Hex : grid_exhausted T0 P0 X Y).
  { intros j [_ Hj]. unfold shell_of. by apply dilute_no_surface. }
  split; [done|].
  exists (profile rmax nstep T0 P0 X Y (nstep - 1)).
  split; [apply make_star_full; [by apply composition_denominator | done]|].
  pose proof (profile_lengths rmax nstep T0 P0 X Y (nstep - 1) ltac:(lia))
    as (_ & _ & Hlen & _).
  split; [rewrite Hlen; lia|].
  intros j s Hs. apply entry_profile_Some in Hs as [Hj ->].
  pose proof (within_all rmax nstep T0 P0 X Y Hn Hr HT0 HP0 Hm Hdil j Hj) as Hw.
  split; [|split].
  - by apply (within_P rmax nstep T0 P0 X Y Hn Hr HT0 HP0 Hm Hdil j Hj).
  - by apply (within_T rmax nstep T0 P0 X Y Hn Hr HT0 HP0 Hm Hdil j Hj).
  - by apply (within_rho rmax nstep T0 P0 X Y Hn Hr HT0 HP0 Hm Hdil j Hj).
Qed.

Lemma dilute_cloud_condition :
  4 * PI * G * (2 * calc_rho 1.0 1.5e7 (mean_mass 0.7 0.28)) ^ 2 * rmax ^ 2
  <= 5 / 12 * 1.0.
Proof.
  rewrite mean_mass_solar. unfold calc_rho, rmax, G, k.
  pose proof PI_4. pose proof PI_RGT_0. lra.
Qed.

(** At a central pressure of 1 erg/cm^3. *)
Lemma make_star_dilute_witness :
  grid_exhausted 1.5e7 1.0 0.7 0.28 /\
  exists o : star,
    make_star 1.5e7 1.0 0.7 0.28 = Returned o /\
    length (out_P o) = nstep /\
    forall (j : nat) (s : shell),
      entry o j = Some s ->
      1.0 / 2 <= sh_P s <= 1.0 /\
      1.5e7 / 2 <= sh_T s <= 3 / 2 * 1.5e7 /\
      0 < sh_rho s <= 2 * calc_rho 1.0 1.5e7 (mean_mass 0.7 0.28).
Proof.
  apply (make_star_dilute 1.5e7 1.0 0.7 0.28); try lra.
  apply dilute_cloud_condition.
Defined.

(** With positive central values the pressure of index 2 is
    [P0 - (4/9) pi G rho0^2 dr^2]; when the central pressure does not exceed
    [(4/9) pi G rho0^2 dr^2], the step is too coarse for the star: the
    surface test holds at index 2, three entries are returned and the
    reported radius is [5 dr / 2]. *)
Theorem make_star_second_step (T0 P0 X Y : R) :
  0 < T0 -> 0 < P0 -> 0 <= X -> 0 <= Y ->
  exists o : star,
    make_star T0 P0 X Y = Returned o /\
    out_P o !! 2%nat
    = Some (P0 - 4 / 9 * PI * G * calc_rho P0 T0 (mean_mass X Y) ^ 2
                 * delta_r rmax nstep ^ 2) /\
    (P0 <= 4 / 9 * PI * G * calc_rho P0 T0 (mean_mass X Y) ^ 2 * delta_r rmax nstep ^ 2 ->
     length (out_P o) = 3%nat /\ r_star o = 5 / 2 * delta_r rmax nstep).
Proof.
  intros HT0 HP0 HX HY.
  pose proof nstep_ge_3 as Hn. pose proof delta_r_make_star_pos as Hdr.
  destruct (make_star_profile T0 P0 X Y (composition_denominator X Y HX HY))
    as (i & Hi & Heq & Hb & Hlast).
  pose proof (first_step rmax nstep T0 P0 X Y Hn) as (_ & HP & HT & Hrho).
  pose proof (second_pressure rmax nstep T0 P0 X Y Hn ltac:(lra)) as HP2.
  assert (Hclear1 : ~ at_surface (shell_of T0 P0 X Y 1)).
  { apply not_at_surface. unfold shell_of. rewrite HP, HT, Hrho.
    repeat split; [done | done |].
    apply calc_rho_pos; [done | done | by apply mean_mass_pos]. }
  assert (Hi2 : (2 <= i)%nat).
  { destruct (decide (i = 1%nat)) as [->|]; [|lia].
    destruct Hlast as [Hs|Hs]; [done | lia]. }
  exists (profile rmax nstep T0 P0 X Y i). split; [done|]. split.
  - unfold profile. cbn [out_P].
    rewrite list_lookup_fmap, lookup_seq_lt by lia. cbn [fmap option_fmap option_map].
    change (0 + 2)%nat with 2%nat. by rewrite HP2.
  - intros Hdense.
    assert (Hs2 : at_surface (shell_of T0 P0 X Y 2)).
    { left. unfold shell_of. rewrite HP2. lra. }
    assert (i = 2%nat) as ->.
    { destruct (decide (i = 2%nat)) as [|Hne]; [done|]. exfalso.
      apply (Hb 2%nat); [lia | done]. }
    pose proof (profile_lengths rmax nstep T0 P0 X Y 2 ltac:(lia)) as (_ & _ & Hlen & _).
    split; [done|]. cbn [r_star profile].
    rewrite get_grid by lia. change (INR 2) with (1 + 1). lra.
Qed.

Lemma dense_core_condition :
  1.0e24
  <= 4 / 9 * PI * G * calc_rho 1.0e24 1.5e7 (mean_mass 0.7 0.28) ^ 2
     * delta_r rmax nstep ^ 2.
Proof.
  pose proof PI2_3_2 as Hpi.
  rewrite delta_r_make_star, mean_mass_solar. unfold calc_rho, G, k. lra.
Qed.

(** At a central pressure of 1e24 erg/cm^3. *)
Lemma make_star_second_step_witness :
  exists o : star,
    make_star 1.5e7 1.0e24 0.7 0.28 = Returned o /\
    out_P o !! 2%nat
    = Some (1.0e24 - 4 / 9 * PI * G * calc_rho 1.0e24 1.5e7 (mean_mass 0.7 0.28) ^ 2
                     * delta_r rmax nstep ^ 2) /\
    length (out_P o) = 3%nat /\ r_star o = 5 / 2 * delta_r rmax nstep.
Proof.
  destruct (make_star_second_step 1.5e7 1.0e24 0.7 0.28) as (o & Heq & HP2 & Hdense);
    try lra.
  exists o. split; [exact Heq|]. split; [exact HP2|].
  apply Hdense. apply dense_core_condition.
Defined.

(** How the loop ended can be read off the returned profile: the loop ran
    through its whole range without meeting the surface test exactly when
    the last returned entry does not meet it. *)
Theorem make_star_exhaustion_detectable (T0 P0 X Y : R) :
  1 + 3 * X + 0.5 * Y <> 0 ->
  exists o : star,
    make_star T0 P0 X Y = Returned o /\
    (grid_exhausted T0 P0 X Y <->
     exists s : shell,
       entry o (length (out_P o) - 1) = Some s /\ ~ at_surface s).
Proof.
  intros Hden.
  destruct (make_star_profile T0 P0 X Y Hden) as (i & Hi & Heq & Hb & Hlast).
  exists (profile rmax nstep T0 P0 X Y i). split; [done|].
  pose proof (profile_lengths rmax nstep T0 P0 X Y i ltac:(lia)) as (_ & _ & Hlen & _).
  rewrite Hlen. replace (S i - 1)%nat with i by lia.
  rewrite entry_profile, decide_True by lia.
  split.
  - intros Hex. exists (shell_of T0 P0 X Y i). split; [done|].
    apply Hex. lia.
  - intros (s & [= <-] & Hs) j Hj.
    destruct Hlast as [Hat | ->]; [done|].
    destruct (decide (j = nstep - 1)%nat) as [->|Hne]; [done|].
    apply Hb. lia.
Qed.

(** At a central pressure of 1 erg/cm^3, where the grid is exhausted. *)
Lemma make_star_exhaustion_detectable_witness :
  exists o : star,
    make_star 1.5e7 1.0 0.7 0.28 = Returned o /\
    (grid_exhausted 1.5e7 1.0 0.7 0.28 <->
     exists s : shell,
       entry o (length (out_P o) - 1) = Some s /\ ~ at_surface s).
Proof. apply (make_star_exhaustion_detectable 1.5e7 1.0 0.7 0.28). lra. Defined.
